(** * The backend connection pool of kingshard ([backend/db.go])

    A shallow embedding of the pool [DB], its two buffered channels
    ([cacheConns], the ready sessions, and [idleConns], the reserved slots),
    the borrowed handle [BackendConn], and the properties of the pool that
    follow from the code.

    Go pointers are addresses into explicit stores: [*Conn] is an optional
    address into a store of [Conn] records, a [chan *Conn] is an optional
    index into a store of channel buffers, so that aliasing (the same
    [*Conn] queued twice, a channel still referenced by a local variable
    after the pool field was set to [nil]) is visible.  One goroutine is
    modelled: an operation that parks on a channel that nobody else can
    serve never returns, which is the outcome [Block]. *)

From Stdlib Require Import ZArith Lia.
From stdpp Require Import relations base option list strings numbers.

(** ** Errors, sessions, events *)

(** The error values of [core/errors] used by the pool, and the errors that
    come back from the backend session. *)
Inductive error : Type :=
| ErrDatabaseClose
| ErrDBPoolInit
| ErrConnIsNil
| ErrBackend (msg : string).

Global Instance error_eq_dec : EqDecision error.
Proof. solve_decision. Defined.

(** An address of a [Conn] object; [*Conn] is [ptr], with [None] for [nil]. *)
Definition loc := nat.
Definition ptr := option loc.

(** Modelled from the spec: the [Conn] struct of [backend/conn.go] is not
    part of the sources at hand; a session has a transaction status, an
    autocommit flag, a charset and a protocol-error marker ([pkgErr], the one
    field [db.go] reads directly).  [connected] records whether the session
    currently holds a live connection. *)
Record Conn : Type := mkConn {
  connected : bool;
  inTransaction : bool;
  autoCommit : bool;
  charset : string;
  pkgErr : option error
}.

(** [new(Conn)]: the zero value. *)
Definition zeroConn : Conn := mkConn false false false EmptyString None.

(** The calls made on sessions, in the order the pool makes them. *)
Inductive call : Type :=
| CallConnect (co : loc) (addr user password db : string)
| CallClose (co : loc)
| CallPing (co : loc)
| CallIsInTransaction (co : loc)
| CallRollback (co : loc)
| CallIsAutoCommit (co : loc)
| CallExec (co : loc) (query : string)
| CallGetCharset (co : loc)
| CallSetCharset (co : loc) (cs : string).

Global Instance call_eq_dec : EqDecision call.
Proof. solve_decision. Defined.

(** The calls that change the state of the backend session. *)
Definition is_mutation (c : call) : bool :=
  match c with
  | CallRollback _ | CallExec _ _ | CallSetCharset _ _ => true
  | _ => false
  end.

(** The calls that [tryReuse] makes on a session. *)
Definition is_sanitation (c : call) : bool :=
  match c with
  | CallIsInTransaction _ | CallRollback _ | CallIsAutoCommit _
  | CallExec _ _ | CallGetCharset _ | CallSetCharset _ _ => true
  | _ => false
  end.

(** What the pool does not decide: the answer of the backend to a call,
    given the calls made so far, and which case a [select] with two ready
    cases takes. *)
Record Env : Type := mkEnv {
  reply : list call -> call -> option error;
  pick_idle : list call -> bool
}.

(** ** Channels and the pool *)

(** A buffered [chan *Conn]. *)
Record Chan : Type := mkChan {
  buf : list ptr;
  cap : nat;
  closed : bool
}.

(** A channel value: [None] is the [nil] channel. *)
Definition chan := option nat.

Record DB : Type := mkDB {
  addr : string;
  user : string;
  password : string;
  db : string;
  state : Z;
  maxConnNum : Z;
  InitConnNum : Z;
  idleConns : chan;
  cacheConns : chan;
  checkConn : ptr
}.

Definition Up : Z := 0.
Definition Down : Z := 1.
Definition Unknown : Z := 2.
Definition InitConnCount : Z := 16.
Definition DefaultMaxConnNum : Z := 1024.

(** The memory of the program: the [Conn] objects, the channels, the pool
    and the calls made on sessions so far. *)
Record World : Type := mkWorld {
  heap : list Conn;
  chans : list Chan;
  pool : DB;
  trace : list call
}.

Definition set_heap (h : list Conn) (w : World) : World :=
  mkWorld h (chans w) (pool w) (trace w).
Definition set_chans (c : list Chan) (w : World) : World :=
  mkWorld (heap w) c (pool w) (trace w).
Definition set_pool (d : DB) (w : World) : World :=
  mkWorld (heap w) (chans w) d (trace w).
Definition log_call (c : call) (w : World) : World :=
  mkWorld (heap w) (chans w) (pool w) (trace w ++ [c]).

(** ** The monad of pool operations *)

(** An operation returns, parks for ever on a channel operation, or
    panics. *)
Inductive outcome (A : Type) : Type :=
| Ret (a : A) (w : World)
| Block (w : World)
| Panic (w : World).
Arguments Ret {A} a w.
Arguments Block {A} w.
Arguments Panic {A} w.

Definition M (A : Type) : Type := World -> outcome A.

Definition ret {A} (a : A) : M A := fun w => Ret a w.

Definition bind {A B} (m : M A) (k : A -> M B) : M B :=
  fun w =>
    match m w with
    | Ret a w' => k a w'
    | Block w' => Block w'
    | Panic w' => Panic w'
    end.

Notation "'let*' x ':=' m 'in' k" := (bind m (fun x => k))
  (at level 10, x name, m at level 100, k at level 200).
Notation "'run' m 'in' k" := (bind m (fun _ => k))
  (at level 10, m at level 100, k at level 200).

Definition get : M World := fun w => Ret w w.
Definition modify (f : World -> World) : M unit := fun w => Ret tt (f w).
Definition panic {A} : M A := fun w => Panic w.
Definition block {A} : M A := fun w => Block w.

(** *** Channel operations *)

(** [make(chan *Conn, n)] *)
Definition make_chan (n : Z) : M chan :=
  fun w => Ret (Some (length (chans w)))
               (set_chans (chans w ++ [mkChan [] (Z.to_nat n) false]) w).

(** [len(c)]; the length of the [nil] channel is 0. *)
Definition chan_len (c : chan) (w : World) : Z :=
  match c with
  | None => 0
  | Some i => match chans w !! i with
              | Some ch => Z.of_nat (length (buf ch))
              | None => 0
              end
  end.

(** [c <- v]: parks for ever on [nil], panics on a closed channel, parks
    while the buffer is full. *)
Definition send (c : chan) (v : ptr) : M unit :=
  fun w =>
    match c with
    | None => Block w
    | Some i =>
        match chans w !! i with
        | None => Panic w
        | Some ch =>
            if closed ch then Panic w
            else if decide (length (buf ch) < cap ch)
                 then Ret tt (set_chans (<[i := mkChan (buf ch ++ [v]) (cap ch) false]> (chans w)) w)
                 else Block w
        end
    end.

(** Whether a receive from [c] can proceed. *)
Definition recv_ready (c : chan) (w : World) : bool :=
  match c with
  | None => false
  | Some i =>
      match chans w !! i with
      | None => false
      | Some ch => match buf ch with [] => closed ch | _ :: _ => true end
      end
  end.

(** [<-c]: the oldest buffered value; [nil] from a closed, drained channel;
    parks otherwise. *)
Definition recv (c : chan) : M ptr :=
  fun w =>
    match c with
    | None => Block w
    | Some i =>
        match chans w !! i with
        | None => Panic w
        | Some ch =>
            match buf ch with
            | v :: rest => Ret v (set_chans (<[i := mkChan rest (cap ch) (closed ch)]> (chans w)) w)
            | [] => if closed ch then Ret None w else Block w
            end
        end
    end.

(** [select { case c <- v: ...; default: ... }]: whether the send was done. *)
Definition try_send (c : chan) (v : ptr) : M bool :=
  fun w =>
    match c with
    | None => Ret false w
    | Some i =>
        match chans w !! i with
        | None => Panic w
        | Some ch =>
            if closed ch then Panic w
            else if decide (length (buf ch) < cap ch)
                 then Ret true (set_chans (<[i := mkChan (buf ch ++ [v]) (cap ch) false]> (chans w)) w)
                 else Ret false w
        end
    end.

(** [close(c)] *)
Definition close_chan (c : chan) : M unit :=
  fun w =>
    match c with
    | None => Panic w
    | Some i =>
        match chans w !! i with
        | None => Panic w
        | Some ch =>
            if closed ch then Panic w
            else Ret tt (set_chans (<[i := mkChan (buf ch) (cap ch) true]> (chans w)) w)
        end
    end.

(** The values still buffered in [c]. *)
Definition chan_buf (c : chan) (w : World) : list ptr :=
  match c with
  | None => []
  | Some i => match chans w !! i with Some ch => buf ch | None => [] end
  end.

(** ** Sessions *)

Section Pool.

(** The backend and the scheduler, and the constant [mysql.DEFAULT_CHARSET]
    (declared in package [mysql]). *)
Variable env : Env.
Variable DEFAULT_CHARSET : string.

(** A call on the session at [co] that the backend answers: a [nil]
    receiver or a dangling address is a panic; the call is logged and, when
    the backend reports no error, the session becomes [upd c]. *)
Definition backend_call (co : ptr) (mk : loc -> call) (upd : Conn -> Conn)
  : M (option error) :=
  fun w =>
    match co with
    | None => Panic w
    | Some a =>
        match heap w !! a with
        | None => Panic w
        | Some c =>
            match reply env (trace w) (mk a) with
            | Some e => Ret (Some e) (log_call (mk a) w)
            | None => Ret None (log_call (mk a) (set_heap (<[a := upd c]> (heap w)) w))
            end
        end
    end.

(** A call that reads a field of the session at [co]. *)
Definition field_call {A} (co : ptr) (mk : loc -> call) (rd : Conn -> A) : M A :=
  fun w =>
    match co with
    | None => Panic w
    | Some a =>
        match heap w !! a with
        | None => Panic w
        | Some c => Ret (rd c) (log_call (mk a) w)
        end
    end.

(** Modelled from the spec: the methods of [Conn] ([backend/conn.go], not
    part of the sources at hand), the session capability of the spec.  A
    successful [Connect] yields a live session that starts clean: no
    transaction, autocommit enabled, the default charset, no protocol
    error. *)
Definition Conn_Connect (co : ptr) (a u p d : string) : M (option error) :=
  backend_call co (fun l => CallConnect l a u p d)
    (fun _ => mkConn true false true DEFAULT_CHARSET None).

(** Modelled from the spec: [close()] ends the connection of the session. *)
Definition Conn_Close (co : ptr) : M unit :=
  fun w =>
    match co with
    | None => Panic w
    | Some a =>
        match heap w !! a with
        | None => Panic w
        | Some c =>
            Ret tt (log_call (CallClose a)
                      (set_heap (<[a := mkConn false (inTransaction c) (autoCommit c)
                                               (charset c) (pkgErr c)]> (heap w)) w))
        end
    end.

(** Modelled from the spec: [ping() -> error]. *)
Definition Conn_Ping (co : ptr) : M (option error) :=
  backend_call co CallPing (fun c => c).

(** Modelled from the spec: [isInTransaction() -> bool]. *)
Definition Conn_IsInTransaction (co : ptr) : M bool :=
  field_call co CallIsInTransaction inTransaction.

(** Modelled from the spec: [rollback() -> error]; a successful rollback
    ends the transaction. *)
Definition Conn_Rollback (co : ptr) : M (option error) :=
  backend_call co CallRollback
    (fun c => mkConn (connected c) false (autoCommit c) (charset c) (pkgErr c)).

(** Modelled from the spec: [isAutoCommit() -> bool]. *)
Definition Conn_IsAutoCommit (co : ptr) : M bool :=
  field_call co CallIsAutoCommit autoCommit.

(** Modelled from the spec: [exec] of a statement; the one statement the
    pool sends enables autocommit. *)
Definition Conn_exec (co : ptr) (query : string) : M (option error) :=
  backend_call co (fun l => CallExec l query)
    (fun c => if decide (query = "set autocommit = 1")
              then mkConn (connected c) (inTransaction c) true (charset c) (pkgErr c)
              else c).

(** Modelled from the spec: [getCharset() -> string]. *)
Definition Conn_GetCharset (co : ptr) : M string :=
  field_call co CallGetCharset charset.

(** Modelled from the spec: [setCharset(name) -> error]. *)
Definition Conn_SetCharset (co : ptr) (cs : string) : M (option error) :=
  backend_call co (fun l => CallSetCharset l cs)
    (fun c => mkConn (connected c) (inTransaction c) (autoCommit c) cs (pkgErr c)).

(** [new(Conn)] *)
Definition new_Conn : M ptr :=
  fun w => Ret (Some (length (heap w))) (set_heap (heap w ++ [zeroConn]) w).

(** ** The pool: [DB] *)

(** The methods below take and release the [RWMutex] of the pool around
    their reads and writes of the two channel fields; with one goroutine
    the lock has no effect and is left out. *)

Definition getConns : M (chan * chan) :=
  fun w => Ret (cacheConns (pool w), idleConns (pool w)) w.

Definition getCacheConns : M chan :=
  fun w => Ret (cacheConns (pool w)) w.

Definition getIdleConns : M chan :=
  fun w => Ret (idleConns (pool w)) w.

Definition newConn : M (ptr * option error) :=
  let* co := new_Conn in
  let* d := get in
  let* err := Conn_Connect co (addr (pool d)) (user (pool d)) (password (pool d)) (db (pool d)) in
  match err with
  | Some e => ret (None, Some e)
  | None => ret (co, None)
  end.

Definition closeConn (co : ptr) : M (option error) :=
  match co with
  | Some _ =>
      run Conn_Close co in
      let* conns := getIdleConns in
      run send conns co in
      ret None
  | None => ret None
  end.

Definition tryReuse (co : ptr) : M (option error) :=
  let* inTx := Conn_IsInTransaction co in
  let* err1 := (if inTx then Conn_Rollback co else ret None) in
  match err1 with
  | Some e => ret (Some e)
  | None =>
      let* ac := Conn_IsAutoCommit co in
      let* err2 := (if negb ac then Conn_exec co "set autocommit = 1" else ret None) in
      match err2 with
      | Some e => ret (Some e)
      | None =>
          let* cs := Conn_GetCharset co in
          if decide (cs <> DEFAULT_CHARSET)
          then
            let* err3 := Conn_SetCharset co DEFAULT_CHARSET in
            match err3 with
            | Some e => ret (Some e)
            | None => ret None
            end
          else ret None
      end
  end.

(** Assignments to the fields of the pool. *)
Definition with_chans (idle cache : chan) (d : DB) : DB :=
  mkDB (addr d) (user d) (password d) (db d) (state d) (maxConnNum d)
       (InitConnNum d) idle cache (checkConn d).
Definition with_checkConn (co : ptr) (d : DB) : DB :=
  mkDB (addr d) (user d) (password d) (db d) (state d) (maxConnNum d)
       (InitConnNum d) (idleConns d) (cacheConns d) co.
Definition with_state (s : Z) (d : DB) : DB :=
  mkDB (addr d) (user d) (password d) (db d) s (maxConnNum d)
       (InitConnNum d) (idleConns d) (cacheConns d) (checkConn d).

(** [for conn := range cacheChannel { db.closeConn(conn) }] on a channel
    that was just closed: one iteration for each value buffered at that
    time, [l], then the loop ends. *)
Fixpoint Close_range (cacheChannel : chan) (l : list ptr) : M unit :=
  match l with
  | [] => ret tt
  | _ :: rest =>
      let* conn := recv cacheChannel in
      run closeConn conn in
      Close_range cacheChannel rest
  end.

Definition Close : M (option error) :=
  let* w := get in
  let idleChannel := idleConns (pool w) in
  let cacheChannel := cacheConns (pool w) in
  run modify (fun w => set_pool (with_chans (idleConns (pool w)) None (pool w)) w) in
  run modify (fun w => set_pool (with_chans None (cacheConns (pool w)) (pool w)) w) in
  match cacheChannel, idleChannel with
  | Some _, Some _ =>
      run close_chan cacheChannel in
      let* w1 := get in
      run Close_range cacheChannel (chan_buf cacheChannel w1) in
      run close_chan idleChannel in
      ret None
  | _, _ => ret None
  end.

Definition Ping : M (option error) :=
  let* w := get in
  match checkConn (pool w) with
  | None =>
      let* r := newConn in
      run modify (fun w => set_pool (with_checkConn (fst r) (pool w)) w) in
      match snd r with
      | Some e => ret (Some e)
      | None => Conn_Ping (fst r)
      end
  | Some _ => Conn_Ping (checkConn (pool w))
  end.

Definition Addr (w : World) : string := addr (pool w).

Definition State (w : World) : string :=
  if decide (state (pool w) = Up) then "up"
  else if decide (state (pool w) = Down) then "down"
  else if decide (state (pool w) = Unknown) then "unknow"
  else EmptyString.

Definition IdleConnCount (w : World) : Z := chan_len (cacheConns (pool w)) w.

(** The end of [PopConn], for a session received from [cacheConns]. *)
Definition PopConn_reuse (co : ptr) : M (ptr * option error) :=
  match co with
  | None => ret (None, Some ErrConnIsNil)
  | Some _ =>
      let* err := tryReuse co in
      match err with
      | Some e => run closeConn co in ret (None, Some e)
      | None => ret (co, None)
      end
  end.

(** The case [co = <-idleConns] of the [select] of [PopConn]. *)
Definition PopConn_fresh (co : ptr) : M (ptr * option error) :=
  let* d := get in
  let* err := Conn_Connect co (addr (pool d)) (user (pool d)) (password (pool d)) (db (pool d)) in
  match err with
  | Some e => run closeConn co in ret (None, Some e)
  | None => ret (co, None)
  end.

Definition PopConn : M (ptr * option error) :=
  let* cs := getConns in
  match cs with
  | (Some cache, Some idle) =>
      let* w := get in
      if decide (0 < chan_len (Some cache) w)%Z
      then
        let* co := recv (Some cache) in
        PopConn_reuse co
      else
        match recv_ready (Some idle) w, recv_ready (Some cache) w with
        | true, true =>
            if pick_idle env (trace w)
            then let* co := recv (Some idle) in PopConn_fresh co
            else let* co := recv (Some cache) in PopConn_reuse co
        | true, false => let* co := recv (Some idle) in PopConn_fresh co
        | false, true => let* co := recv (Some cache) in PopConn_reuse co
        | false, false => block
        end
  | _ => ret (None, Some ErrDatabaseClose)
  end.

Definition PushConn (co : ptr) (err : option error) : M unit :=
  match co with
  | None => ret tt
  | Some _ =>
      let* conns := getCacheConns in
      match conns with
      | None => run Conn_Close co in ret tt
      | Some _ =>
          match err with
          | Some _ => run closeConn co in ret tt
          | None =>
              let* sent := try_send conns co in
              if sent : bool then ret tt
              else run closeConn co in ret tt
          end
      end
  end.

(** [for i := 0; i < db.maxConnNum; i++ { ... }] of [Open], over the values
    [idx] that [i] takes; [Some e] is the early [return nil, e]. *)
Fixpoint Open_fill (idx : list Z) : M (option error) :=
  match idx with
  | [] => ret None
  | i :: rest =>
      let* w := get in
      if decide (i < InitConnNum (pool w))%Z
      then
        let* r := newConn in
        match snd r with
        | Some _ => run Close in ret (Some ErrDBPoolInit)
        | None =>
            let* w1 := get in
            run send (cacheConns (pool w1)) (fst r) in
            Open_fill rest
        end
      else
        let* conn := new_Conn in
        let* w1 := get in
        run send (idleConns (pool w1)) conn in
        Open_fill rest
  end.

(** The values of the loop counter: [0], ..., [n - 1]. *)
Definition counter_values (n : Z) : list Z :=
  map Z.of_nat (seq 0 (Z.to_nat n)).

(** [Open]: the pool it builds is the pool of the world it returns;
    [None] is the return [(db, nil)], [Some e] the return [(nil, e)].  The
    [int] argument is an integer of the machine; no operation on it
    overflows. *)
Definition Open (addr user password dbName : string) (maxConnNum : Z)
  : M (option error) :=
  let maxN := if decide (0 < maxConnNum)%Z then maxConnNum else DefaultMaxConnNum in
  let initN :=
    if decide (0 < maxConnNum)%Z
    then (if decide (maxConnNum < 16)%Z then maxConnNum else (maxConnNum `quot` 4)%Z)
    else InitConnCount in
  run modify (set_pool (mkDB addr user password dbName 0 maxN initN None None None)) in
  let* r := newConn in
  run modify (fun w => set_pool (with_checkConn (fst r) (pool w)) w) in
  match snd r with
  | Some _ => run Close in ret (Some ErrDatabaseClose)
  | None =>
      let* idle := make_chan maxN in
      run modify (fun w => set_pool (with_chans idle (cacheConns (pool w)) (pool w)) w) in
      let* cache := make_chan maxN in
      run modify (fun w => set_pool (with_chans (idleConns (pool w)) cache (pool w)) w) in
      run modify (fun w => set_pool (with_state Unknown (pool w)) w) in
      Open_fill (counter_values maxN)
  end.

(** ** The borrowed handle: [BackendConn] *)

(** The handle embeds the [*Conn]; its [db] field is the pool. *)
Record BackendConn : Type := mkBackendConn { bc_Conn : ptr }.

Definition BackendConn_Close (p : BackendConn) : M unit :=
  match bc_Conn p with
  | None => ret tt
  | Some a =>
      let* w := get in
      match heap w !! a with
      | None => panic
      | Some c =>
          match pkgErr c with
          | Some _ => run closeConn (bc_Conn p) in ret tt
          | None => PushConn (bc_Conn p) None
          end
      end
  end.

Definition GetConn : M (option BackendConn * option error) :=
  let* r := PopConn in
  match snd r with
  | Some e => ret (None, Some e)
  | None => ret (Some (mkBackendConn (fst r)), None)
  end.

(** ** The pool as its users see it *)

(** The ready sessions and the reserved slots. *)
Definition ready (w : World) : list ptr := chan_buf (cacheConns (pool w)) w.
Definition reserved (w : World) : list ptr := chan_buf (idleConns (pool w)) w.

(** A pointer to an allocated [Conn]. *)
Definition valid_ptr (w : World) (p : ptr) : Prop :=
  exists a, p = Some a /\ a < length (heap w).

(** The pool is open: its two channels are distinct open channels of
    capacity [maxConnNum], holding [rs] (reserved) and [rd] (ready). *)
Definition pool_at (w : World) (ci cc : nat) (rs rd : list ptr) : Prop :=
  idleConns (pool w) = Some ci /\ cacheConns (pool w) = Some cc /\ ci <> cc /\
  chans w !! ci = Some (mkChan rs (Z.to_nat (maxConnNum (pool w))) false) /\
  chans w !! cc = Some (mkChan rd (Z.to_nat (maxConnNum (pool w))) false).

(** The invariant of an open pool whose sessions [B] are handed out and not
    yet released: every slot of the capacity is in exactly one of the ready
    collection, the reserved collection and [B]. *)
Definition pool_inv (w : World) (B : list loc) : Prop :=
  exists ci cc rs rd,
    pool_at w ci cc rs rd /\
    NoDup (rd ++ rs ++ map Some B) /\
    Forall (valid_ptr w) (rd ++ rs ++ map Some B) /\
    length rd + length rs + length B = Z.to_nat (maxConnNum (pool w)) /\
    (0 < maxConnNum (pool w))%Z.

(** What a caller does with a pool, with the sessions handed out and not
    yet released as ghost state: it acquires a session; it releases, or the
    pool discards, a session it holds; it uses a session it holds, which
    changes the state of that session in any way; it runs the health
    check. *)
Inductive step : World * list loc -> World * list loc -> Prop :=
| step_acquire w w' a B :
    PopConn w = Ret (Some a, None) w' ->
    step (w, B) (w', a :: B)
| step_acquire_error w w' e B :
    PopConn w = Ret (None, Some e) w' ->
    step (w, B) (w', B)
| step_release w w' a err B1 B2 :
    PushConn (Some a) err w = Ret tt w' ->
    step (w, B1 ++ a :: B2) (w', B1 ++ B2)
| step_discard w w' a B1 B2 :
    closeConn (Some a) w = Ret None w' ->
    step (w, B1 ++ a :: B2) (w', B1 ++ B2)
| step_use w a c B :
    a ∈ B ->
    step (w, B) (set_heap (<[a := c]> (heap w)) w, B)
| step_ping w w' r B :
    Ping w = Ret r w' ->
    step (w, B) (w', B).

(** The states of a pool between a successful [Open] and [Close]. *)
Inductive reachable : World -> list loc -> Prop :=
| reach_Open a u p d n w0 w :
    Open a u p d n w0 = Ret None w ->
    reachable w []
| reach_step w B w' B' :
    reachable w B ->
    step (w, B) (w', B') ->
    reachable w' B'.

(** A session is clean: no transaction, autocommit enabled, the default
    charset. *)
Definition clean (c : Conn) : Prop :=
  inTransaction c = false /\ autoCommit c = true /\ charset c = DEFAULT_CHARSET.

(** [w'] differs from [w] by calls [t] made on the session at [a]. *)
Definition session_run (a : loc) (t : list call) (w w' : World) : Prop :=
  chans w' = chans w /\ pool w' = pool w /\
  length (heap w') = length (heap w) /\
  trace w' = trace w ++ t /\
  (forall b, b <> a -> heap w' !! b = heap w !! b).

(** The effect of an operation on everything but the channels: calls [t]
    on the session at [a]. *)
Definition session_eff (a : loc) (t : list call) (w w' : World) : Prop :=
  pool w' = pool w /\
  length (heap w') = length (heap w) /\
  trace w' = trace w ++ t /\
  (forall b, b <> a -> heap w' !! b = heap w !! b).

(** The outcomes of [PopConn] on an open pool with reserved slots [rs] and
    ready sessions [rd]. *)
Inductive PopConn_result (w : World) (ci cc : nat) (rs rd : list ptr)
  : outcome (ptr * option error) -> Prop :=
| pop_reuse a rd' t w1 w' :
    rd = Some a :: rd' ->
    pool_at w' ci cc rs rd' ->
    session_eff a (CallIsInTransaction a :: t) w w' ->
    Forall (fun x => is_sanitation x = true) t ->
    heap w1 = heap w -> trace w1 = trace w ->
    tryReuse (Some a) w1 = Ret None w' ->
    PopConn_result w ci cc rs rd (Ret (Some a, None) w')
| pop_reuse_fail a rd' t e w' :
    rd = Some a :: rd' ->
    pool_at w' ci cc (rs ++ [Some a]) rd' ->
    session_eff a ((CallIsInTransaction a :: t) ++ [CallClose a]) w w' ->
    Forall (fun x => is_sanitation x = true) t ->
    PopConn_result w ci cc rs rd (Ret (None, Some e) w')
| pop_fresh a rs' w' :
    rd = [] -> rs = Some a :: rs' ->
    pool_at w' ci cc rs' [] ->
    session_eff a [CallConnect a (addr (pool w)) (user (pool w))
                               (password (pool w)) (db (pool w))] w w' ->
    heap w' !! a = Some (mkConn true false true DEFAULT_CHARSET None) ->
    PopConn_result w ci cc rs rd (Ret (Some a, None) w')
| pop_fresh_fail a rs' e w' :
    rd = [] -> rs = Some a :: rs' ->
    pool_at w' ci cc (rs' ++ [Some a]) [] ->
    session_eff a [CallConnect a (addr (pool w)) (user (pool w))
                               (password (pool w)) (db (pool w));
                   CallClose a] w w' ->
    PopConn_result w ci cc rs rd (Ret (None, Some e) w')
| pop_block :
    rd = [] -> rs = [] ->
    PopConn_result w ci cc rs rd (Block w).

(** A live session: an allocated [Conn] that holds a connection. *)
Definition live (w : World) (p : ptr) : Prop :=
  exists a c, p = Some a /\ heap w !! a = Some c /\ connected c = true.

(** The state of the pool while [Open] fills it, after [k] rounds of the
    loop. *)
Definition filled (w : World) (ci cc : nat) (rs rd : list ptr) (k : nat) : Prop :=
  pool_at w ci cc rs rd /\
  length rd = Z.to_nat (Z.min (Z.of_nat k) (InitConnNum (pool w))) /\
  length rd + length rs = k /\
  NoDup (rd ++ rs) /\
  Forall (valid_ptr w) (rd ++ rs) /\
  Forall (live w) rd.

(** The capacity and the number of sessions that [Open] connects at once,
    as [Open] computes them from its argument. *)
Definition clamp_max (n : Z) : Z :=
  if decide (0 < n)%Z then n else DefaultMaxConnNum.
Definition clamp_init (n : Z) : Z :=
  if decide (0 < n)%Z
  then (if decide (n < 16)%Z then n else (n `quot` 4)%Z)
  else InitConnCount.

(** A step of a caller after which the session at [a] is not handed out. *)
Definition step_without (a : loc) (s s' : World * list loc) : Prop :=
  step s s' /\ a ∉ s'.2.

Ltac list_len :=
  repeat first [ progress cbn [length map app] in *
               | rewrite length_app in *
               | rewrite length_map in * ];
  lia.

(** Steps of a run of [tryReuse] on a session whose state is known. *)
Ltac tr_step Hc :=
  repeat (cbn [heap trace log_call set_heap chans pool inTransaction autoCommit
               charset connected pkgErr negb];
          rewrite ?list_lookup_insert_eq by (by rewrite ?length_insert);
          rewrite ?Hc;
          rewrite ?(decide_True (P := "set autocommit = 1" = "set autocommit = 1")) by done);
  cbn [heap trace log_call set_heap chans pool inTransaction autoCommit
       charset connected pkgErr negb].

Ltac tr_fail t x :=
  intros [= <- <-]; cbn; split; [done|]; split; [done|];
  exists t, x; rewrite <- ?app_assoc in *; cbn in *;
  split; [done|]; split; [done|]; split; [done|]; by repeat constructor.

Ltac tr_ok :=
  intros [= <- <-]; cbn; split; [done|]; split; [done|];
  rewrite <- ?app_assoc; cbn;
  split; [done|];
  rewrite ?list_insert_insert_eq; first [done | symmetry; by apply list_insert_id].

(** ** Example states *)

(** A backend that answers every call without error, and one that refuses
    every connection. *)
Definition up_backend : Env := mkEnv (fun _ _ => None) (fun _ => true).
Definition down_backend : Env :=
  mkEnv (fun _ c => match c with
                    | CallConnect _ _ _ _ _ => Some (ErrBackend "connection refused")
                    | _ => None
                    end)
        (fun _ => true).

Definition emptyDB : DB :=
  mkDB EmptyString EmptyString EmptyString EmptyString 0 0 0 None None None.
Definition emptyWorld : World := mkWorld [] [] emptyDB [].

Definition demo_db (n i : Z) (idle cache : chan) (check : ptr) (st : Z) : DB :=
  mkDB "127.0.0.1:3306" "root" "secret" "kingshard" st n i idle cache check.
Definition connect_call (a : loc) : call :=
  CallConnect a "127.0.0.1:3306" "root" "secret" "kingshard".
Definition sanitation_calls (a : loc) : list call :=
  [CallIsInTransaction a; CallIsAutoCommit a; CallGetCharset a].
Definition fresh_conn : Conn := mkConn true false true "utf8" None.
Definition failed_conn : Conn :=
  mkConn true false true "utf8" (Some (ErrBackend "bad packet")).

(** A pool of capacity 1 after [Open]. *)
Definition w_open1 : World :=
  mkWorld [fresh_conn; fresh_conn]
          [mkChan [] 1 false; mkChan [Some 1] 1 false]
          (demo_db 1 1 (Some 0) (Some 1) (Some 0) Unknown)
          [connect_call 0; connect_call 1].

(** The same pool after its session was handed out. *)
Definition w_held1 : World :=
  mkWorld [fresh_conn; fresh_conn]
          [mkChan [] 1 false; mkChan [] 1 false]
          (demo_db 1 1 (Some 0) (Some 1) (Some 0) Unknown)
          ([connect_call 0; connect_call 1] ++ sanitation_calls 1).

(** The caller has met a protocol error on that session. *)
Definition w_error1 : World :=
  mkWorld [fresh_conn; failed_conn]
          [mkChan [] 1 false; mkChan [] 1 false]
          (demo_db 1 1 (Some 0) (Some 1) (Some 0) Unknown)
          ([connect_call 0; connect_call 1] ++ sanitation_calls 1).

(** The caller has closed its handle: the session is discarded. *)
Definition w_discarded1 : World :=
  mkWorld [fresh_conn; mkConn false false true "utf8" (Some (ErrBackend "bad packet"))]
          [mkChan [Some 1] 1 false; mkChan [] 1 false]
          (demo_db 1 1 (Some 0) (Some 1) (Some 0) Unknown)
          ([connect_call 0; connect_call 1] ++ sanitation_calls 1 ++ [CallClose 1]).

(** The next [PopConn] has handed out the same [Conn], connected again. *)
Definition w_again1 : World :=
  mkWorld [fresh_conn; fresh_conn]
          [mkChan [] 1 false; mkChan [] 1 false]
          (demo_db 1 1 (Some 0) (Some 1) (Some 0) Unknown)
          ([connect_call 0; connect_call 1] ++ sanitation_calls 1
           ++ [CallClose 1; connect_call 1]).

(** The pool of capacity 1 shut down while its session is handed out. *)
Definition w_shut1 : World :=
  mkWorld [fresh_conn; fresh_conn]
          [mkChan [] 1 true; mkChan [] 1 true]
          (demo_db 1 1 None None (Some 0) Unknown)
          ([connect_call 0; connect_call 1] ++ sanitation_calls 1).

(** A pool of capacity 2 after [Open], and where its [Close] parks. *)
Definition w_open2 : World :=
  mkWorld [fresh_conn; fresh_conn; fresh_conn]
          [mkChan [] 2 false; mkChan [Some 1; Some 2] 2 false]
          (demo_db 2 2 (Some 0) (Some 1) (Some 0) Unknown)
          [connect_call 0; connect_call 1; connect_call 2].
Definition w_parked2 : World :=
  mkWorld [fresh_conn; mkConn false false true "utf8" None; fresh_conn]
          [mkChan [] 2 false; mkChan [Some 2] 2 true]
          (demo_db 2 2 None None (Some 0) Unknown)
          [connect_call 0; connect_call 1; connect_call 2; CallClose 1].

(** A pool of capacity 3 with two of its sessions handed out, and the same
    pool after the handle of the first was closed once and twice. *)
Definition w_two_out3 : World :=
  mkWorld [fresh_conn; fresh_conn; fresh_conn; fresh_conn]
          [mkChan [] 3 false; mkChan [Some 3] 3 false]
          (demo_db 3 3 (Some 0) (Some 1) (Some 0) Unknown)
          ([connect_call 0; connect_call 1; connect_call 2; connect_call 3]
           ++ sanitation_calls 1 ++ sanitation_calls 2).
Definition w_closed_once3 : World :=
  mkWorld [fresh_conn; fresh_conn; fresh_conn; fresh_conn]
          [mkChan [] 3 false; mkChan [Some 3; Some 1] 3 false]
          (demo_db 3 3 (Some 0) (Some 1) (Some 0) Unknown)
          ([connect_call 0; connect_call 1; connect_call 2; connect_call 3]
           ++ sanitation_calls 1 ++ sanitation_calls 2).
Definition w_closed_twice3 : World :=
  mkWorld [fresh_conn; fresh_conn; fresh_conn; fresh_conn]
          [mkChan [] 3 false; mkChan [Some 3; Some 1; Some 1] 3 false]
          (demo_db 3 3 (Some 0) (Some 1) (Some 0) Unknown)
          ([connect_call 0; connect_call 1; connect_call 2; connect_call 3]
           ++ sanitation_calls 1 ++ sanitation_calls 2).

(** What is left of [Open] with capacity 4 when the backend is down. *)
Definition w_down : World :=
  mkWorld [zeroConn] [] (demo_db 4 4 None None None 0) [connect_call 0].

(** A backend that refuses every rollback, and the pool of capacity 1 whose
    session was released inside a transaction. *)
Definition norollback_backend : Env :=
  mkEnv (fun _ c => match c with
                    | CallRollback _ => Some (ErrBackend "server has gone away")
                    | _ => None
                    end)
        (fun _ => true).
Definition w_dirty1 : World :=
  mkWorld [fresh_conn; mkConn true true true "utf8" None]
          [mkChan [] 1 false; mkChan [Some 1] 1 false]
          (demo_db 1 1 (Some 0) (Some 1) (Some 0) Unknown)
          ([connect_call 0; connect_call 1] ++ sanitation_calls 1).

(** That pool after a sanitation that succeeded, and after one whose
    rollback was refused. *)
Definition w_rolled1 : World :=
  mkWorld [fresh_conn; fresh_conn]
          [mkChan [] 1 false; mkChan [Some 1] 1 false]
          (demo_db 1 1 (Some 0) (Some 1) (Some 0) Unknown)
          ([connect_call 0; connect_call 1] ++ sanitation_calls 1
           ++ [CallIsInTransaction 1; CallRollback 1; CallIsAutoCommit 1; CallGetCharset 1]).
Definition w_refused1 : World :=
  mkWorld [fresh_conn; mkConn true true true "utf8" None]
          [mkChan [] 1 false; mkChan [Some 1] 1 false]
          (demo_db 1 1 (Some 0) (Some 1) (Some 0) Unknown)
          ([connect_call 0; connect_call 1] ++ sanitation_calls 1
           ++ [CallIsInTransaction 1; CallRollback 1]).

(** The pool of capacity 1 shut down while its session, which has met a
    protocol error, is handed out. *)
Definition w_shut_error1 : World :=
  mkWorld [fresh_conn; failed_conn]
          [mkChan [] 1 true; mkChan [] 1 true]
          (demo_db 1 1 None None (Some 0) Unknown)
          ([connect_call 0; connect_call 1] ++ sanitation_calls 1).


(** The same outcome in a world whose channels are [ch]. *)
Definition outcome_chans {A} (ch : list Chan) (o : outcome A) : outcome A :=
  match o with
  | Ret a w => Ret a (set_chans ch w)
  | Block w => Block (set_chans ch w)
  | Panic w => Panic (set_chans ch w)
  end.

(** ** Lemmas on the monad and the channels *)

Lemma bind_Ret {A B} (m : M A) (k : A -> M B) w a w1 :
  m w = Ret a w1 -> bind m k w = k a w1.
Proof. intros H. unfold bind. by rewrite H. Qed.

Lemma bind_Block {A B} (m : M A) (k : A -> M B) w w1 :
  m w = Block w1 -> bind m k w = Block w1.
Proof. intros H. unfold bind. by rewrite H. Qed.

Lemma bind_inv {A B} (m : M A) (k : A -> M B) w r w' :
  bind m k w = Ret r w' -> exists a w1, m w = Ret a w1 /\ k a w1 = Ret r w'.
Proof. unfold bind. destruct (m w); [eauto | done | done]. Qed.

Lemma session_run_refl a w : session_run a [] w w.
Proof. unfold session_run. rewrite app_nil_r. done. Qed.

Lemma session_run_trans a t1 t2 w1 w2 w3 :
  session_run a t1 w1 w2 -> session_run a t2 w2 w3 ->
  session_run a (t1 ++ t2) w1 w3.
Proof.
  intros (Hc1 & Hp1 & Hl1 & Ht1 & Hf1) (Hc2 & Hp2 & Hl2 & Ht2 & Hf2).
  unfold session_run. rewrite Hc2, Hp2, Hl2, Ht2, Ht1, app_assoc.
  repeat split; try done. intros b Hb. rewrite Hf2, Hf1; done.
Qed.

Lemma pool_at_ext w w' ci cc rs rd :
  chans w' = chans w -> pool w' = pool w ->
  pool_at w ci cc rs rd -> pool_at w' ci cc rs rd.
Proof. unfold pool_at. intros -> ->. done. Qed.

Lemma pool_at_ready w ci cc rs rd : pool_at w ci cc rs rd -> ready w = rd.
Proof. intros (_ & Hc & _ & _ & Hcc). unfold ready, chan_buf. by rewrite Hc, Hcc. Qed.

Lemma pool_at_reserved w ci cc rs rd : pool_at w ci cc rs rd -> reserved w = rs.
Proof. intros (Hi & _ & _ & Hci & _). unfold reserved, chan_buf. by rewrite Hi, Hci. Qed.

Lemma pool_at_fun w ci cc rs rd ci' cc' rs' rd' :
  pool_at w ci cc rs rd -> pool_at w ci' cc' rs' rd' ->
  ci' = ci /\ cc' = cc /\ rs' = rs /\ rd' = rd.
Proof.
  intros (Hi & Hc & _ & Hci & Hcc) (Hi' & Hc' & _ & Hci' & Hcc').
  rewrite Hi in Hi'. rewrite Hc in Hc'. simplify_eq. done.
Qed.

(** ** Lemmas on the calls made on sessions *)

Lemma backend_call_run a c mk upd w :
  heap w !! a = Some c ->
  exists w',
    backend_call (Some a) mk upd w = Ret (reply env (trace w) (mk a)) w' /\
    session_run a [mk a] w w' /\
    heap w' !! a = Some (match reply env (trace w) (mk a) with
                         | Some _ => c
                         | None => upd c
                         end).
Proof.
  intros Hc. unfold backend_call. rewrite Hc.
  assert (a < length (heap w)) as Hlt by (by eapply lookup_lt_Some).
  destruct (reply env (trace w) (mk a)) as [e|]; eexists; (split; [reflexivity|]).
  - split; [|exact Hc]. by repeat split.
  - split; cbn.
    + repeat split; cbn; try done.
      * by rewrite length_insert.
      * intros b Hb. by rewrite list_lookup_insert_ne.
    + by rewrite list_lookup_insert_eq.
Qed.

Lemma field_call_run {A} a c mk (rd : Conn -> A) w :
  heap w !! a = Some c ->
  field_call (Some a) mk rd w = Ret (rd c) (log_call (mk a) w) /\
  session_run a [mk a] w (log_call (mk a) w).
Proof.
  intros Hc. unfold field_call. rewrite Hc. split; [done|]. by repeat split.
Qed.

Lemma Conn_Close_run a c w :
  heap w !! a = Some c ->
  exists w',
    Conn_Close (Some a) w = Ret tt w' /\
    session_run a [CallClose a] w w' /\
    heap w' !! a = Some (mkConn false (inTransaction c) (autoCommit c)
                                (charset c) (pkgErr c)).
Proof.
  intros Hc. unfold Conn_Close. rewrite Hc.
  assert (a < length (heap w)) as Hlt by (by eapply lookup_lt_Some).
  eexists; split; [done|]. split; cbn.
  - repeat split; cbn; try done.
    + by rewrite length_insert.
    + intros b Hb. by rewrite list_lookup_insert_ne.
  - by rewrite list_lookup_insert_eq.
Qed.

Lemma session_run_lookup a t w w' :
  session_run a t w w' -> is_Some (heap w !! a) -> is_Some (heap w' !! a).
Proof.
  intros (_ & _ & Hl & _) H. apply lookup_lt_is_Some. rewrite Hl.
  by apply lookup_lt_is_Some.
Qed.

(** [tryReuse] on an allocated session returns, and only makes sanitation
    calls on that session, the first of which is [IsInTransaction]. *)
Lemma tryReuse_run a c w :
  heap w !! a = Some c ->
  exists r w' t,
    tryReuse (Some a) w = Ret r w' /\
    session_run a (CallIsInTransaction a :: t) w w' /\
    Forall (fun x => is_sanitation x = true) t.
Proof.
  intros Hc. unfold tryReuse.
  destruct (field_call_run a c CallIsInTransaction inTransaction w Hc) as [E1 R1].
  unfold Conn_IsInTransaction. rewrite (bind_Ret _ _ _ _ _ E1).
  set (w1 := log_call (CallIsInTransaction a) w) in *.
  assert (heap w1 !! a = Some c) as Hc1 by done.
  (* rollback *)
  assert (exists err1 w2 t1 c2,
    (if inTransaction c then Conn_Rollback (Some a) else ret None) w1 = Ret err1 w2 /\
    session_run a t1 w1 w2 /\ Forall (fun x => is_sanitation x = true) t1 /\
    heap w2 !! a = Some c2) as (err1 & w2 & t1 & c2 & E2 & R2 & F2 & Hc2).
  { destruct (inTransaction c).
    - destruct (backend_call_run a c CallRollback
        (fun c => mkConn (connected c) false (autoCommit c) (charset c) (pkgErr c))
        w1 Hc1) as (w2 & E & R & H).
      exists (reply env (trace w1) (CallRollback a)), w2, [CallRollback a]. eexists.
      split; [exact E|]. split; [done|]. split; [|exact H]. by repeat constructor.
    - exists None, w1, [], c. split; [done|]. split; [apply session_run_refl|]. done. }
  rewrite (bind_Ret _ _ _ _ _ E2).
  destruct err1 as [e|].
  { exists (Some e), w2, t1. split; [done|]. split; [|done].
    change (CallIsInTransaction a :: t1) with ([CallIsInTransaction a] ++ t1).
    by eapply session_run_trans. }
  destruct (field_call_run a c2 CallIsAutoCommit autoCommit w2 Hc2) as [E3 R3].
  unfold Conn_IsAutoCommit. rewrite (bind_Ret _ _ _ _ _ E3).
  set (w3 := log_call (CallIsAutoCommit a) w2) in *.
  assert (heap w3 !! a = Some c2) as Hc3 by done.
  assert (exists err2 w4 t2 c4,
    (if negb (autoCommit c2) then Conn_exec (Some a) "set autocommit = 1" else ret None) w3
      = Ret err2 w4 /\
    session_run a t2 w3 w4 /\ Forall (fun x => is_sanitation x = true) t2 /\
    heap w4 !! a = Some c4) as (err2 & w4 & t2 & c4 & E4 & R4 & F4 & Hc4).
  { destruct (autoCommit c2); cbn [negb].
    - exists None, w3, [], c2. split; [done|]. split; [apply session_run_refl|]. done.
    - destruct (backend_call_run a c2 (fun l => CallExec l "set autocommit = 1")
        (fun c => if decide ("set autocommit = 1" = "set autocommit = 1")
                  then mkConn (connected c) (inTransaction c) true (charset c) (pkgErr c)
                  else c)
        w3 Hc3) as (w4 & E & R & H).
      eexists _, w4, [CallExec a "set autocommit = 1"], _.
      split; [exact E|]. split; [done|]. split; [|exact H]. by repeat constructor. }
  rewrite (bind_Ret _ _ _ _ _ E4).
  assert (session_run a (CallIsInTransaction a :: t1 ++ CallIsAutoCommit a :: t2) w w4) as R14.
  { change (CallIsInTransaction a :: t1 ++ CallIsAutoCommit a :: t2)
      with ([CallIsInTransaction a] ++ t1 ++ [CallIsAutoCommit a] ++ t2).
    eapply session_run_trans; [exact R1|]. eapply session_run_trans; [exact R2|].
    eapply session_run_trans; [exact R3|exact R4]. }
  destruct err2 as [e|].
  { exists (Some e), w4, (t1 ++ CallIsAutoCommit a :: t2). split; [done|]. split; [done|].
    apply Forall_app. split; [done|]. by constructor. }
  destruct (field_call_run a c4 CallGetCharset charset w4 Hc4) as [E5 R5].
  unfold Conn_GetCharset. rewrite (bind_Ret _ _ _ _ _ E5).
  set (w5 := log_call (CallGetCharset a) w4) in *.
  assert (heap w5 !! a = Some c4) as Hc5 by done.
  assert (session_run a
    (CallIsInTransaction a :: (t1 ++ CallIsAutoCommit a :: t2 ++ [CallGetCharset a])) w w5) as R15.
  { replace (CallIsInTransaction a :: (t1 ++ CallIsAutoCommit a :: t2 ++ [CallGetCharset a]))
      with ((CallIsInTransaction a :: t1 ++ CallIsAutoCommit a :: t2) ++ [CallGetCharset a]).
    - by eapply session_run_trans.
    - cbn. f_equal. rewrite <- app_assoc. done. }
  assert (Forall (fun x => is_sanitation x = true)
            (t1 ++ CallIsAutoCommit a :: t2 ++ [CallGetCharset a])) as F15.
  { apply Forall_app. split; [done|]. constructor; [done|].
    apply Forall_app. split; [done|]. by repeat constructor. }
  destruct (decide (charset c4 <> DEFAULT_CHARSET)) as [Hne|Heq].
  - destruct (backend_call_run a c4 (fun l => CallSetCharset l DEFAULT_CHARSET)
        (fun c => mkConn (connected c) (inTransaction c) (autoCommit c) DEFAULT_CHARSET (pkgErr c))
        w5 Hc5) as (w6 & E & R & H).
    unfold Conn_SetCharset. rewrite (bind_Ret _ _ _ _ _ E).
    exists (reply env (trace w5) (CallSetCharset a DEFAULT_CHARSET)), w6,
      ((t1 ++ CallIsAutoCommit a :: t2 ++ [CallGetCharset a]) ++ [CallSetCharset a DEFAULT_CHARSET]).
    split; [by destruct (reply env (trace w5) (CallSetCharset a DEFAULT_CHARSET))|].
    split.
    + change (CallIsInTransaction a :: (t1 ++ CallIsAutoCommit a :: t2 ++ [CallGetCharset a]) ++
              [CallSetCharset a DEFAULT_CHARSET])
        with ((CallIsInTransaction a :: (t1 ++ CallIsAutoCommit a :: t2 ++ [CallGetCharset a])) ++
              [CallSetCharset a DEFAULT_CHARSET]).
      by eapply session_run_trans.
    + apply Forall_app. split; [done|]. by repeat constructor.
  - exists None, w5, (t1 ++ CallIsAutoCommit a :: t2 ++ [CallGetCharset a]). done.
Qed.

Lemma session_run_eff a t w w' : session_run a t w w' -> session_eff a t w w'.
Proof. intros (_ & H). exact H. Qed.

Lemma session_eff_trans a t1 t2 w1 w2 w3 :
  session_eff a t1 w1 w2 -> session_eff a t2 w2 w3 ->
  session_eff a (t1 ++ t2) w1 w3.
Proof.
  intros (Hp1 & Hl1 & Ht1 & Hf1) (Hp2 & Hl2 & Ht2 & Hf2).
  unfold session_eff. rewrite Hp2, Hl2, Ht2, Ht1, app_assoc.
  repeat split; try done. intros b Hb. rewrite Hf2, Hf1; done.
Qed.

Lemma session_eff_chans a t w w' c :
  session_eff a t w w' -> session_eff a t w (set_chans c w').
Proof. done. Qed.

(** *** Channel operations on an open pool *)

Lemma pool_at_lt w ci cc rs rd :
  pool_at w ci cc rs rd -> ci < length (chans w) /\ cc < length (chans w).
Proof.
  intros (_ & _ & _ & Hci & Hcc). split; by eapply lookup_lt_Some.
Qed.

Lemma pool_at_set_idle w ci cc rs rd rs' :
  pool_at w ci cc rs rd ->
  pool_at (set_chans (<[ci := mkChan rs' (Z.to_nat (maxConnNum (pool w))) false]> (chans w)) w)
          ci cc rs' rd.
Proof.
  intros H. destruct (pool_at_lt _ _ _ _ _ H) as [Hi Hc].
  destruct H as (Hi' & Hc' & Hne & Hci & Hcc).
  unfold pool_at; cbn. repeat split; try done.
  - by rewrite list_lookup_insert_eq.
  - by rewrite list_lookup_insert_ne.
Qed.

Lemma pool_at_set_cache w ci cc rs rd rd' :
  pool_at w ci cc rs rd ->
  pool_at (set_chans (<[cc := mkChan rd' (Z.to_nat (maxConnNum (pool w))) false]> (chans w)) w)
          ci cc rs rd'.
Proof.
  intros H. destruct (pool_at_lt _ _ _ _ _ H) as [Hi Hc].
  destruct H as (Hi' & Hc' & Hne & Hci & Hcc).
  unfold pool_at; cbn. repeat split; try done.
  - by rewrite list_lookup_insert_ne.
  - by rewrite list_lookup_insert_eq.
Qed.

Lemma send_idle w ci cc rs rd v :
  pool_at w ci cc rs rd ->
  length rs < Z.to_nat (maxConnNum (pool w)) ->
  send (Some ci) v w =
  Ret tt (set_chans (<[ci := mkChan (rs ++ [v]) (Z.to_nat (maxConnNum (pool w))) false]> (chans w)) w).
Proof.
  intros (_ & _ & _ & Hci & _) Hlt. unfold send. rewrite Hci. cbn.
  by rewrite decide_True.
Qed.

Lemma send_cache w ci cc rs rd v :
  pool_at w ci cc rs rd ->
  length rd < Z.to_nat (maxConnNum (pool w)) ->
  send (Some cc) v w =
  Ret tt (set_chans (<[cc := mkChan (rd ++ [v]) (Z.to_nat (maxConnNum (pool w))) false]> (chans w)) w).
Proof.
  intros (_ & _ & _ & _ & Hcc) Hlt. unfold send. rewrite Hcc. cbn.
  by rewrite decide_True.
Qed.

Lemma try_send_cache w ci cc rs rd v :
  pool_at w ci cc rs rd ->
  try_send (Some cc) v w =
  if decide (length rd < Z.to_nat (maxConnNum (pool w)))
  then Ret true (set_chans (<[cc := mkChan (rd ++ [v]) (Z.to_nat (maxConnNum (pool w))) false]> (chans w)) w)
  else Ret false w.
Proof.
  intros (_ & _ & _ & _ & Hcc). unfold try_send. rewrite Hcc. done.
Qed.

Lemma recv_cache w ci cc rs rd v :
  pool_at w ci cc rs (v :: rd) ->
  recv (Some cc) w =
  Ret v (set_chans (<[cc := mkChan rd (Z.to_nat (maxConnNum (pool w))) false]> (chans w)) w).
Proof. intros (_ & _ & _ & _ & Hcc). unfold recv. by rewrite Hcc. Qed.

Lemma recv_idle w ci cc rs rd v :
  pool_at w ci cc (v :: rs) rd ->
  recv (Some ci) w =
  Ret v (set_chans (<[ci := mkChan rs (Z.to_nat (maxConnNum (pool w))) false]> (chans w)) w).
Proof. intros (_ & _ & _ & Hci & _). unfold recv. by rewrite Hci. Qed.

Lemma chan_len_cache w ci cc rs rd :
  pool_at w ci cc rs rd -> chan_len (Some cc) w = Z.of_nat (length rd).
Proof. intros (_ & _ & _ & _ & Hcc). unfold chan_len. by rewrite Hcc. Qed.

Lemma chan_len_idle w ci cc rs rd :
  pool_at w ci cc rs rd -> chan_len (Some ci) w = Z.of_nat (length rs).
Proof. intros (_ & _ & _ & Hci & _). unfold chan_len. by rewrite Hci. Qed.

Lemma recv_ready_cache w ci cc rs rd :
  pool_at w ci cc rs rd ->
  recv_ready (Some cc) w = match rd with [] => false | _ => true end.
Proof. intros (_ & _ & _ & _ & Hcc). unfold recv_ready. rewrite Hcc. by destruct rd. Qed.

Lemma recv_ready_idle w ci cc rs rd :
  pool_at w ci cc rs rd ->
  recv_ready (Some ci) w = match rs with [] => false | _ => true end.
Proof. intros (_ & _ & _ & Hci & _). unfold recv_ready. rewrite Hci. by destruct rs. Qed.

(** *** [closeConn] *)

(** On an open pool with room in the reserved collection, [closeConn]
    closes the session and queues the same [Conn] as a reserved slot. *)
Lemma closeConn_run w ci cc rs rd a c :
  pool_at w ci cc rs rd ->
  heap w !! a = Some c ->
  length rs < Z.to_nat (maxConnNum (pool w)) ->
  exists w',
    closeConn (Some a) w = Ret None w' /\
    pool_at w' ci cc (rs ++ [Some a]) rd /\
    session_eff a [CallClose a] w w' /\
    heap w' !! a = Some (mkConn false (inTransaction c) (autoCommit c)
                                (charset c) (pkgErr c)).
Proof.
  intros Hat Hc Hlt. unfold closeConn.
  destruct (Conn_Close_run a c w Hc) as (w1 & E1 & R1 & H1).
  rewrite (bind_Ret _ _ _ _ _ E1).
  destruct R1 as (Hch & Hp & R1).
  assert (pool_at w1 ci cc rs rd) as Hat1 by (by eapply pool_at_ext).
  rewrite (bind_Ret getIdleConns _ w1 (idleConns (pool w1)) w1 eq_refl).
  destruct Hat1 as (Hi & Hat1'). rewrite Hi.
  assert (pool_at w1 ci cc rs rd) as Hat1 by done.
  rewrite (bind_Ret _ _ _ _ _ (send_idle w1 ci cc rs rd (Some a) Hat1 ltac:(by rewrite Hp))).
  eexists. split; [reflexivity|].
  split; [eapply pool_at_set_idle; exact Hat1|]. split; [|exact H1].
  apply session_eff_chans. by split.
Qed.

(** After [Close] has set the channel fields to [nil], [closeConn] closes
    the session and then parks for ever on the send to the [nil] channel. *)
Lemma closeConn_nil_blocks w a c :
  idleConns (pool w) = None ->
  heap w !! a = Some c ->
  exists w',
    closeConn (Some a) w = Block w' /\
    session_run a [CallClose a] w w' /\
    heap w' !! a = Some (mkConn false (inTransaction c) (autoCommit c)
                                (charset c) (pkgErr c)).
Proof.
  intros Hnil Hc. unfold closeConn.
  destruct (Conn_Close_run a c w Hc) as (w1 & E1 & R1 & H1).
  rewrite (bind_Ret _ _ _ _ _ E1).
  rewrite (bind_Ret getIdleConns _ w1 (idleConns (pool w1)) w1 eq_refl).
  destruct R1 as (Hch & Hp & R1). rewrite Hp, Hnil.
  exists w1. split; [done|]. split; [|done]. by split.
Qed.

(** *** [PopConn] *)

Lemma valid_ptr_lookup w p :
  valid_ptr w p -> exists a c, p = Some a /\ heap w !! a = Some c.
Proof.
  intros (a & -> & Hlt). destruct (lookup_lt_is_Some_2 _ _ Hlt) as [c Hc]. eauto.
Qed.

Lemma PopConn_reuse_spec w w1 ci cc rs rd a c :
  pool_at w1 ci cc rs rd ->
  heap w1 = heap w -> pool w1 = pool w -> trace w1 = trace w ->
  heap w !! a = Some c ->
  length rs < Z.to_nat (maxConnNum (pool w)) ->
  PopConn_result w ci cc rs (Some a :: rd) (PopConn_reuse (Some a) w1).
Proof.
  intros Hat Hh Hp Ht Hc Hlt. unfold PopConn_reuse.
  assert (heap w1 !! a = Some c) as Hc1 by (by rewrite Hh).
  destruct (tryReuse_run a c w1 Hc1) as (r & w2 & t & E & R & F).
  rewrite (bind_Ret _ _ _ _ _ E).
  assert (session_eff a (CallIsInTransaction a :: t) w w2) as Reff.
  { destruct R as (_ & Hp2 & Hl2 & Ht2 & Hf2). unfold session_eff.
    rewrite Hp2, Hl2, Ht2, Hp, Hh, Ht. repeat split; try done.
    intros b Hb. rewrite Hf2 by done. by rewrite Hh. }
  assert (pool_at w2 ci cc rs rd) as Hat2.
  { destruct R as (Hch & Hp2 & _). by eapply pool_at_ext. }
  destruct r as [e|].
  - destruct (session_run_lookup a _ w1 w2 R (mk_is_Some _ _ Hc1)) as [c2 Hc2].
    destruct (closeConn_run w2 ci cc rs rd a c2 Hat2 Hc2) as (w3 & E3 & Hat3 & R3 & _).
    { destruct R as (_ & -> & _). by rewrite Hp. }
    rewrite (bind_Ret _ _ _ _ _ E3).
    eapply pop_reuse_fail; [done|exact Hat3| |exact F].
    by eapply session_eff_trans.
  - by eapply (pop_reuse _ _ _ _ _ a rd t w1 w2).
Qed.

Lemma PopConn_fresh_spec w w1 ci cc rs a c :
  pool_at w1 ci cc rs [] ->
  heap w1 = heap w -> pool w1 = pool w -> trace w1 = trace w ->
  heap w !! a = Some c ->
  length rs < Z.to_nat (maxConnNum (pool w)) ->
  PopConn_result w ci cc (Some a :: rs) [] (PopConn_fresh (Some a) w1).
Proof.
  intros Hat Hh Hp Ht Hc Hlt. unfold PopConn_fresh.
  rewrite (bind_Ret get _ w1 w1 w1 eq_refl).
  assert (heap w1 !! a = Some c) as Hc1 by (by rewrite Hh).
  destruct (backend_call_run a c
    (fun l => CallConnect l (addr (pool w1)) (user (pool w1)) (password (pool w1)) (db (pool w1)))
    (fun _ => mkConn true false true DEFAULT_CHARSET None) w1 Hc1) as (w2 & E & R & H).
  unfold Conn_Connect. rewrite (bind_Ret _ _ _ _ _ E).
  assert (session_eff a [CallConnect a (addr (pool w)) (user (pool w))
                                       (password (pool w)) (db (pool w))] w w2) as Reff.
  { destruct R as (_ & Hp2 & Hl2 & Ht2 & Hf2). unfold session_eff.
    rewrite Hp2, Hl2, Ht2, Hp, Hh, Ht. repeat split; try done.
    intros b Hb. rewrite Hf2 by done. by rewrite Hh. }
  assert (pool_at w2 ci cc rs []) as Hat2.
  { destruct R as (Hch & Hp2 & _). by eapply pool_at_ext. }
  destruct (reply env (trace w1) _) as [e|].
  - destruct (closeConn_run w2 ci cc rs [] a c Hat2 H) as (w3 & E3 & Hat3 & R3 & _).
    { destruct R as (_ & -> & _). by rewrite Hp. }
    rewrite (bind_Ret _ _ _ _ _ E3).
    eapply pop_fresh_fail; [done|done|exact Hat3|].
    change [CallConnect a (addr (pool w)) (user (pool w)) (password (pool w)) (db (pool w));
            CallClose a]
      with ([CallConnect a (addr (pool w)) (user (pool w)) (password (pool w)) (db (pool w))]
            ++ [CallClose a]).
    by eapply session_eff_trans.
  - by eapply pop_fresh.
Qed.

Lemma PopConn_spec w ci cc rs rd :
  pool_at w ci cc rs rd ->
  Forall (valid_ptr w) (rd ++ rs) ->
  length rd + length rs <= Z.to_nat (maxConnNum (pool w)) ->
  PopConn_result w ci cc rs rd (PopConn w).
Proof.
  intros Hat Hv Hle. unfold PopConn.
  rewrite (bind_Ret getConns _ w (cacheConns (pool w), idleConns (pool w)) w eq_refl).
  pose proof Hat as (Hi & Hc & _). rewrite Hi, Hc.
  rewrite (bind_Ret get _ w w w eq_refl).
  rewrite (chan_len_cache _ _ _ _ _ Hat).
  rewrite (recv_ready_cache _ _ _ _ _ Hat), (recv_ready_idle _ _ _ _ _ Hat).
  destruct rd as [|p rd].
  - rewrite decide_False by (cbn; lia).
    destruct rs as [|p rs]; [by apply pop_block|].
    cbn in Hv. apply Forall_cons_1 in Hv as [Hp Hv].
    destruct (valid_ptr_lookup _ _ Hp) as (a & c & -> & Hca).
    rewrite (bind_Ret _ _ _ _ _ (recv_idle _ _ _ _ _ _ Hat)).
    eapply PopConn_fresh_spec;
      first [done | eapply pool_at_set_idle; exact Hat | cbn in Hle; lia].
  - rewrite decide_True by (cbn; lia).
    cbn in Hv. apply Forall_cons_1 in Hv as [Hp Hv].
    destruct (valid_ptr_lookup _ _ Hp) as (a & c & -> & Hca).
    rewrite (bind_Ret _ _ _ _ _ (recv_cache _ _ _ _ _ _ Hat)).
    eapply PopConn_reuse_spec;
      first [done | eapply pool_at_set_cache; exact Hat | cbn in Hle; lia].
Qed.

(** *** [PushConn] *)

Lemma PushConn_ok_spec w ci cc rs rd a :
  pool_at w ci cc rs rd ->
  length rd < Z.to_nat (maxConnNum (pool w)) ->
  exists w',
    PushConn (Some a) None w = Ret tt w' /\
    pool_at w' ci cc rs (rd ++ [Some a]) /\
    heap w' = heap w /\ pool w' = pool w /\ trace w' = trace w.
Proof.
  intros Hat Hlt. unfold PushConn.
  rewrite (bind_Ret getCacheConns _ w (cacheConns (pool w)) w eq_refl).
  pose proof Hat as (_ & Hc & _). rewrite Hc.
  pose proof (try_send_cache _ _ _ _ _ (Some a) Hat) as E.
  rewrite decide_True in E by done.
  rewrite (bind_Ret _ _ _ _ _ E). cbn.
  eexists. split; [reflexivity|]. split; [eapply pool_at_set_cache; exact Hat|done].
Qed.

Lemma PushConn_err_spec w ci cc rs rd a c e :
  pool_at w ci cc rs rd ->
  heap w !! a = Some c ->
  length rs < Z.to_nat (maxConnNum (pool w)) ->
  exists w',
    PushConn (Some a) (Some e) w = Ret tt w' /\
    pool_at w' ci cc (rs ++ [Some a]) rd /\
    session_eff a [CallClose a] w w'.
Proof.
  intros Hat Hc Hlt. unfold PushConn.
  rewrite (bind_Ret getCacheConns _ w (cacheConns (pool w)) w eq_refl).
  pose proof Hat as (_ & Hcc & _). rewrite Hcc.
  destruct (closeConn_run w ci cc rs rd a c Hat Hc Hlt) as (w' & E & Hat' & R & _).
  rewrite (bind_Ret _ _ _ _ _ E). eauto.
Qed.

(** ** Preservation of the invariant *)

Lemma pool_at_fields w w' ci cc rs rd :
  chans w' = chans w ->
  idleConns (pool w') = idleConns (pool w) ->
  cacheConns (pool w') = cacheConns (pool w) ->
  maxConnNum (pool w') = maxConnNum (pool w) ->
  pool_at w ci cc rs rd -> pool_at w' ci cc rs rd.
Proof. unfold pool_at. intros -> -> -> ->. done. Qed.

Lemma valid_ptr_mono w w' l :
  length (heap w) <= length (heap w') ->
  Forall (valid_ptr w) l -> Forall (valid_ptr w') l.
Proof.
  intros Hle. apply Forall_impl. intros p (a & -> & Hlt).
  exists a. split; [done|lia].
Qed.

Lemma pool_inv_intro w w' ci cc rs rd B l :
  pool_at w' ci cc rs rd ->
  rd ++ rs ++ map Some B ≡ₚ l ->
  NoDup l ->
  Forall (valid_ptr w) l ->
  length (heap w) <= length (heap w') ->
  length l = Z.to_nat (maxConnNum (pool w')) ->
  (0 < maxConnNum (pool w'))%Z ->
  pool_inv w' B.
Proof.
  intros Hat Hperm Hnd Hv Hle Hlen Hpos.
  exists ci, cc, rs, rd. split; [done|].
  split; [by rewrite Hperm|].
  split; [rewrite Hperm; by eapply valid_ptr_mono|].
  split; [|done].
  rewrite <- Hlen, <- Hperm. rewrite !length_app, length_map. lia.
Qed.

Lemma Ping_frame w r w' :
  Ping w = Ret r w' ->
  chans w' = chans w /\
  idleConns (pool w') = idleConns (pool w) /\
  cacheConns (pool w') = cacheConns (pool w) /\
  maxConnNum (pool w') = maxConnNum (pool w) /\
  length (heap w) <= length (heap w').
Proof.
  unfold Ping, newConn, Conn_Ping, Conn_Connect, backend_call, new_Conn, bind, get, modify, ret.
  cbn. intros H.
  repeat (case_match; simplify_eq; cbn in * ); cbn;
    rewrite ?length_insert, ?length_app; cbn; repeat split; try done; try lia.
Qed.

(** What a step of a caller does to the collections: the slots are
    permuted among the ready collection, the reserved collection and the
    sessions handed out; a reserved slot stays reserved unless it is the
    one handed out; the ready collection only gains sessions that were
    handed out. *)
Lemma step_effect w B w' B' ci cc rs rd :
  pool_inv w B -> step (w, B) (w', B') ->
  pool_at w ci cc rs rd ->
  exists rs' rd',
    pool_at w' ci cc rs' rd' /\
    rd' ++ rs' ++ map Some B' ≡ₚ rd ++ rs ++ map Some B /\
    length (heap w) <= length (heap w') /\
    maxConnNum (pool w') = maxConnNum (pool w) /\
    (forall p, p ∈ rs -> p ∈ rs' \/ exists b, p = Some b /\ B' = b :: B) /\
    (forall p, p ∈ rd' -> p ∈ rd \/ exists b, p = Some b /\ b ∈ B).
Proof.
  intros Hinv Hstep Hat.
  destruct Hinv as (ci' & cc' & rs0 & rd0 & Hat0 & Hnd & Hv & Hlen & Hpos).
  destruct (pool_at_fun _ _ _ _ _ _ _ _ _ Hat Hat0) as (-> & -> & -> & ->).
  clear Hat0.
  inversion Hstep as
    [w1 w1' a B0 Hop | w1 w1' e B0 Hop | w1 w1' a err B1 B2 Hop
    | w1 w1' a B1 B2 Hop | w1 a c B0 Hin | w1 w1' r B0 Hop]; subst.
  - (* acquire *)
    assert (PopConn_result w ci cc rs rd (PopConn w)) as Hres.
    { apply PopConn_spec; [done| |lia].
      rewrite app_assoc in Hv. by apply Forall_app in Hv as [Hv _]. }
    rewrite Hop in Hres.
    inversion Hres as [a' rd' t w0 w2 -> Hat' (Hp & Hl & _) _ _ _ _
                      | | a' rs' w2 -> -> Hat' (Hp & Hl & _) _ | |]; subst.
    + exists rs, rd'. split; [done|].
      split; [cbn; by rewrite <- !Permutation_middle|].
      split; [lia|]. split; [by rewrite Hp|].
      split; [by left|]. intros p Hp'. left. by right.
    + exists rs', []. split; [done|].
      split; [cbn; by rewrite <- !Permutation_middle|].
      split; [lia|]. split; [by rewrite Hp|].
      split; [|by left].
      intros p [->|Hp']%elem_of_cons; [right; by exists a|by left].
  - (* acquire, error *)
    assert (PopConn_result w ci cc rs rd (PopConn w)) as Hres.
    { apply PopConn_spec; [done| |lia].
      rewrite app_assoc in Hv. by apply Forall_app in Hv as [Hv _]. }
    rewrite Hop in Hres.
    inversion Hres as [| a' rd' t e' w2 -> Hat' (Hp & Hl & _) _
                       | | a' rs' e' w2 -> -> Hat' (Hp & Hl & _) |]; subst.
    + exists (rs ++ [Some a']), rd'. split; [done|].
      split; [cbn; rewrite <- app_assoc; cbn; by rewrite <- !Permutation_middle|].
      split; [lia|]. split; [by rewrite Hp|].
      split; [intros p Hp'; left; apply elem_of_app; by left|].
      intros p Hp'. left. by right.
    + exists (rs' ++ [Some a']), []. split; [done|].
      split; [cbn; rewrite <- app_assoc; cbn; by rewrite <- !Permutation_middle|].
      split; [lia|]. split; [by rewrite Hp|].
      split; [|by left].
      intros p [->|Hp']%elem_of_cons; left; apply elem_of_app; [right; by left|by left].
  - (* release *)
    assert (valid_ptr w (Some a)) as Hva.
    { rewrite Forall_forall in Hv. apply Hv.
      rewrite map_app, !in_app_iff. cbn. auto. }
    destruct (valid_ptr_lookup _ _ Hva) as (a0 & c & [= <-] & Hc).
    assert (length B1 + S (length B2) = length (B1 ++ a :: B2)) as HlenB by list_len.
    destruct err as [e|].
    + destruct (PushConn_err_spec w ci cc rs rd a c e Hat Hc ltac:(lia))
        as (w2 & E & Hat' & (Hp & Hl & _)).
      rewrite E in Hop. injection Hop as <-.
      exists (rs ++ [Some a]), rd. split; [done|].
      split; [rewrite !map_app; cbn; rewrite <- !app_assoc; cbn;
              by rewrite <- !Permutation_middle|].
      split; [lia|]. split; [by rewrite Hp|].
      split; [intros p Hp'; left; apply elem_of_app; by left|by left].
    + destruct (PushConn_ok_spec w ci cc rs rd a Hat ltac:(lia))
        as (w2 & E & Hat' & Hh & Hp & _).
      rewrite E in Hop. injection Hop as <-.
      exists rs, (rd ++ [Some a]). split; [done|].
      split; [rewrite !map_app; cbn; rewrite <- !app_assoc; cbn;
              by rewrite <- !Permutation_middle|].
      split; [by rewrite Hh|]. split; [by rewrite Hp|].
      split; [by left|].
      intros p [Hp'|Hp']%elem_of_app; [by left|].
      apply list_elem_of_singleton in Hp' as ->.
      right. exists a. split; [done|]. apply elem_of_app. right. by left.
  - (* discard *)
    assert (valid_ptr w (Some a)) as Hva.
    { rewrite Forall_forall in Hv. apply Hv.
      rewrite map_app, !in_app_iff. cbn. auto. }
    destruct (valid_ptr_lookup _ _ Hva) as (a0 & c & [= <-] & Hc).
    assert (length B1 + S (length B2) = length (B1 ++ a :: B2)) as HlenB by list_len.
    destruct (closeConn_run w ci cc rs rd a c Hat Hc ltac:(lia))
      as (w2 & E & Hat' & (Hp & Hl & _) & _).
    rewrite E in Hop. injection Hop as <-.
    exists (rs ++ [Some a]), rd. split; [done|].
    split; [rewrite !map_app; cbn; rewrite <- !app_assoc; cbn;
            by rewrite <- !Permutation_middle|].
    split; [lia|]. split; [by rewrite Hp|].
    split; [intros p Hp'; left; apply elem_of_app; by left|by left].
  - (* use *)
    exists rs, rd. split; [eapply pool_at_ext; [| |exact Hat]; done|].
    split; [done|]. split; [cbn; by rewrite length_insert|].
    split; [done|]. split; by left.
  - (* health check *)
    destruct (Ping_frame _ _ _ Hop) as (Hch & Hi & Hc & Hm & Hl).
    exists rs, rd. split; [eapply pool_at_fields; [| | | |exact Hat]; done|].
    split; [done|]. split; [done|]. split; [done|]. split; by left.
Qed.

(** Every step of a caller preserves the invariant and the capacity. *)
Lemma step_pool_inv w B w' B' :
  pool_inv w B -> step (w, B) (w', B') ->
  pool_inv w' B' /\ maxConnNum (pool w') = maxConnNum (pool w).
Proof.
  intros Hinv Hstep.
  pose proof Hinv as (ci & cc & rs & rd & Hat & Hnd & Hv & Hlen & Hpos).
  destruct (step_effect _ _ _ _ _ _ _ _ Hinv Hstep Hat)
    as (rs' & rd' & Hat' & Hperm & Hl & Hm & _).
  split; [|done].
  eapply (pool_inv_intro w w'); [exact Hat'|exact Hperm|exact Hnd|exact Hv|exact Hl|
                                 |by rewrite Hm].
  rewrite Hm. list_len.
Qed.

(** ** [Open] *)

Lemma newConn_run w :
  exists w',
    newConn w =
      Ret (match reply env (trace w)
                   (CallConnect (length (heap w)) (addr (pool w)) (user (pool w))
                                (password (pool w)) (db (pool w))) with
           | Some e => (None, Some e)
           | None => (Some (length (heap w)), None)
           end) w' /\
    chans w' = chans w /\ pool w' = pool w /\
    length (heap w') = S (length (heap w)) /\
    trace w' = trace w ++ [CallConnect (length (heap w)) (addr (pool w)) (user (pool w))
                                       (password (pool w)) (db (pool w))] /\
    (forall b, b < length (heap w) -> heap w' !! b = heap w !! b) /\
    (reply env (trace w)
           (CallConnect (length (heap w)) (addr (pool w)) (user (pool w))
                        (password (pool w)) (db (pool w))) = None ->
     heap w' !! length (heap w) = Some (mkConn true false true DEFAULT_CHARSET None)).
Proof.
  unfold newConn.
  rewrite (bind_Ret new_Conn _ w (Some (length (heap w)))
             (set_heap (heap w ++ [zeroConn]) w) eq_refl).
  set (w1 := set_heap (heap w ++ [zeroConn]) w).
  rewrite (bind_Ret get _ w1 w1 w1 eq_refl).
  assert (heap w1 !! length (heap w) = Some zeroConn) as Hz.
  { cbn. rewrite lookup_app_r by lia. by rewrite Nat.sub_diag. }
  destruct (backend_call_run (length (heap w)) zeroConn
    (fun l => CallConnect l (addr (pool w1)) (user (pool w1)) (password (pool w1)) (db (pool w1)))
    (fun _ => mkConn true false true DEFAULT_CHARSET None) w1 Hz) as (w2 & E & R & H).
  unfold Conn_Connect. rewrite (bind_Ret _ _ _ _ _ E).
  destruct R as (Hch & Hp & Hl & Ht & Hf).
  exists w2. change (trace w1) with (trace w) in *. change (pool w1) with (pool w) in *.
  split; [by destruct (reply env (trace w) _)|].
  split; [done|]. split; [done|].
  split; [rewrite Hl; cbn; rewrite length_app; cbn; lia|].
  split; [done|]. split.
  - intros b Hb. rewrite Hf by lia. cbn. by rewrite lookup_app_l.
  - intros Hr. rewrite Hr in H. exact H.
Qed.

Lemma live_mono w w' l :
  (forall b, b < length (heap w) -> heap w' !! b = heap w !! b) ->
  Forall (live w) l -> Forall (live w') l.
Proof.
  intros Hf. apply Forall_impl. intros p (a & c & -> & Hc & Hl).
  exists a, c. split; [done|]. split; [|done].
  rewrite Hf; [done|]. by eapply lookup_lt_Some.
Qed.

Lemma valid_ptr_fresh w l :
  Forall (valid_ptr w) l -> Some (length (heap w)) ∉ l.
Proof.
  intros Hv Hin. apply list_elem_of_In in Hin.
  rewrite Forall_forall in Hv. destruct (Hv _ Hin) as (a & [= <-] & Hlt). lia.
Qed.

Lemma Open_fill_spec n : forall k w ci cc rs rd w',
  filled w ci cc rs rd k ->
  k + n <= Z.to_nat (maxConnNum (pool w)) ->
  (0 <= InitConnNum (pool w))%Z ->
  Open_fill (map Z.of_nat (seq k n)) w = Ret None w' ->
  exists rs' rd', filled w' ci cc rs' rd' (k + n) /\ pool w' = pool w.
Proof.
  induction n as [|n IH]; intros k w ci cc rs rd w' Hf Hle Hpos Hrun.
  - cbn in Hrun. injection Hrun as <-. exists rs, rd. by rewrite Nat.add_0_r.
  - cbn [seq map Open_fill] in Hrun.
    rewrite (bind_Ret get _ w w w eq_refl) in Hrun.
    destruct Hf as (Hat & Hlrd & Hlen & Hnd & Hv & Hlive).
    pose proof Hat as (Hi & Hc & _).
    destruct (decide (Z.of_nat k < InitConnNum (pool w))%Z) as [Hlt|Hge].
    + (* a live session for the ready collection *)
      destruct (newConn_run w) as (w1 & E1 & Hch1 & Hp1 & Hl1 & Ht1 & Hfr1 & Hnew1).
      rewrite (bind_Ret _ _ _ _ _ E1) in Hrun.
      destruct (reply env (trace w) _) as [e|] eqn:Hr; cbn [snd fst] in Hrun.
      { apply bind_inv in Hrun as (? & ? & _ & [=]). }
      rewrite (bind_Ret get _ w1 w1 w1 eq_refl) in Hrun.
      rewrite Hp1, Hc in Hrun.
      assert (pool_at w1 ci cc rs rd) as Hat1 by (by eapply pool_at_ext).
      rewrite (bind_Ret _ _ _ _ _
                 (send_cache w1 ci cc rs rd (Some (length (heap w))) Hat1
                    ltac:(rewrite Hp1; lia))) in Hrun.
      replace (k + S n) with (S k + n) by lia.
      eapply (IH (S k)) in Hrun as (rs' & rd' & Hf' & Hp'); cbn [pool set_chans] in *.
      * exists rs', rd'. split; [done|]. by rewrite Hp', Hp1.
      * split; [eapply pool_at_set_cache; exact Hat1|].
        cbn [pool set_chans heap]. rewrite Hp1.
        split; [rewrite length_app; cbn; lia|].
        split; [rewrite length_app; cbn; lia|].
        split.
        { rewrite <- app_assoc. cbn. apply list.NoDup_app.
          apply list.NoDup_app in Hnd as (Hnd1 & Hdis & Hnd2).
          split; [done|]. split.
          - intros x Hx [->|Hx']%elem_of_cons.
            + eapply (valid_ptr_fresh w); [exact Hv|]. apply elem_of_app. by left.
            + by eapply Hdis.
          - apply list.NoDup_cons. split; [|done]. intros Hin.
            eapply (valid_ptr_fresh w); [exact Hv|]. apply elem_of_app. by right. }
        split.
        { rewrite <- app_assoc. cbn.
          apply Forall_app. apply Forall_app in Hv as [Hv1 Hv2].
          split; [eapply valid_ptr_mono; [|exact Hv1]; cbn; lia|].
          constructor; [exists (length (heap w)); split; [done|cbn; lia]|].
          eapply valid_ptr_mono; [|exact Hv2]. cbn; lia. }
        apply Forall_app. split.
        { eapply (live_mono w); [|exact Hlive]. exact Hfr1. }
        constructor; [|done]. eexists _, _. split; [done|]. split; [by apply Hnew1|done].
      * cbn [pool set_chans]. rewrite Hp1. lia.
      * cbn [pool set_chans]. by rewrite Hp1.
    + (* an empty slot for the reserved collection *)
      rewrite (bind_Ret new_Conn _ w (Some (length (heap w)))
                 (set_heap (heap w ++ [zeroConn]) w) eq_refl) in Hrun.
      set (w1 := set_heap (heap w ++ [zeroConn]) w) in *.
      assert (chans w1 = chans w) as Hch1 by done.
      assert (pool w1 = pool w) as Hp1 by done.
      assert (heap w1 = heap w ++ [zeroConn]) as Hh1 by done.
      clearbody w1.
      rewrite (bind_Ret get _ w1 w1 w1 eq_refl) in Hrun.
      rewrite Hp1, Hi in Hrun.
      assert (pool_at w1 ci cc rs rd) as Hat1 by (by eapply pool_at_ext).
      rewrite (bind_Ret _ _ _ _ _
                 (send_idle w1 ci cc rs rd (Some (length (heap w))) Hat1
                    ltac:(rewrite Hp1; lia))) in Hrun.
      replace (k + S n) with (S k + n) by lia.
      eapply (IH (S k)) in Hrun as (rs' & rd' & Hf' & Hp'); cbn [pool set_chans] in *.
      * exists rs', rd'. split; [done|]. by rewrite Hp', Hp1.
      * split; [eapply pool_at_set_idle; exact Hat1|].
        cbn [pool set_chans heap]. rewrite Hp1.
        split; [lia|].
        split; [rewrite length_app; cbn; lia|].
        split.
        { rewrite app_assoc. apply list.NoDup_app. split; [done|]. split.
          - intros x Hx ->%list_elem_of_singleton.
            by eapply (valid_ptr_fresh w).
          - apply NoDup_singleton. }
        split.
        { rewrite app_assoc. apply Forall_app. split.
          - eapply valid_ptr_mono; [|exact Hv]. cbn. rewrite Hh1, length_app. lia.
          - constructor; [|done]. exists (length (heap w)). split; [done|].
            cbn. rewrite Hh1, length_app. cbn. lia. }
        eapply (live_mono w); [|exact Hlive].
        intros b Hb. cbn. rewrite Hh1. by rewrite lookup_app_l.
      * cbn [pool set_chans]. rewrite Hp1. lia.
      * cbn [pool set_chans]. by rewrite Hp1.
Qed.

Lemma clamp_bounds n :
  (0 < clamp_max n)%Z /\ (0 <= clamp_init n <= clamp_max n)%Z.
Proof.
  unfold clamp_max, clamp_init, DefaultMaxConnNum, InitConnCount.
  destruct (decide (0 < n)%Z); [|lia].
  destruct (decide (n < 16)%Z); [lia|].
  rewrite Z.quot_div_nonneg by lia.
  pose proof (Z.div_pos n 4). pose proof (Z.div_le_upper_bound n 4 n). lia.
Qed.

(** A successful [Open] leaves a filled pool. *)
Lemma Open_spec a u p d n w0 w :
  Open a u p d n w0 = Ret None w ->
  maxConnNum (pool w) = clamp_max n /\
  InitConnNum (pool w) = clamp_init n /\
  exists ci cc rs rd,
    filled w ci cc rs rd (Z.to_nat (maxConnNum (pool w))).
Proof.
  unfold Open. fold (clamp_max n). fold (clamp_init n).
  intros Hrun.
  pose proof (clamp_bounds n) as [Hmax Hinit].
  rewrite (bind_Ret (modify _) _ w0 tt _ eq_refl) in Hrun.
  match type of Hrun with context [bind newConn _ ?x] => set (w1 := x) in * end.
  destruct (newConn_run w1) as (w2 & E & Hch & Hp & Hl & Ht & Hf & Hnew).
  rewrite (bind_Ret _ _ _ _ _ E) in Hrun.
  rewrite (bind_Ret (modify _) _ w2 tt _ eq_refl) in Hrun.
  destruct (reply env (trace w1) _) as [e|]; cbn [snd fst] in Hrun.
  { apply bind_inv in Hrun as (? & ? & _ & [=]). }
  clear E Hnew.
  assert (pool w2 = mkDB a u p d 0 (clamp_max n) (clamp_init n) None None None) as Hp2
    by (by rewrite Hp).
  clearbody w1. clear Hp.
  revert Hrun.
  unfold make_chan, modify, bind at 1 2 3 4 5. cbn [pool set_pool set_chans chans].
  rewrite Hp2. cbn [with_checkConn with_chans with_state maxConnNum idleConns cacheConns
                    addr user password db state InitConnNum checkConn].
  rewrite length_app. cbn [length].
  replace (length (chans w2) + 1) with (S (length (chans w2))) by lia.
  intros Hrun.
  unfold counter_values in Hrun.
  match type of Hrun with Open_fill _ ?x = _ => set (w3 := x) in * end.
  assert (pool w3 = mkDB a u p d Unknown (clamp_max n) (clamp_init n)
                         (Some (length (chans w2))) (Some (S (length (chans w2))))
                         (Some (length (heap w1)))) as Hp3 by done.
  assert (chans w3 = (chans w2 ++ [mkChan [] (Z.to_nat (clamp_max n)) false])
                     ++ [mkChan [] (Z.to_nat (clamp_max n)) false]) as Hch3 by done.
  clearbody w3.
  eapply (Open_fill_spec _ 0 w3 (length (chans w2)) (S (length (chans w2))) [] [])
    in Hrun as (rs & rd & Hfill & Hp').
  - rewrite Hp', Hp3. cbn. split; [done|]. split; [done|].
    exists (length (chans w2)), (S (length (chans w2))), rs, rd.
    exact Hfill.
  - unfold filled, pool_at. rewrite Hp3, Hch3. cbn.
    split.
    { split; [done|]. split; [done|]. split; [lia|]. split.
      - rewrite lookup_app_l by (rewrite length_app; cbn; lia).
        rewrite lookup_app_r by lia. by rewrite Nat.sub_diag.
      - rewrite lookup_app_r by (rewrite length_app; cbn; lia).
        rewrite length_app. cbn.
        replace (S (length (chans w2)) - (length (chans w2) + 1)) with 0 by lia. done. }
    split; [rewrite Z.min_l by lia; done|].
    split; [done|]. split; [constructor|]. split; constructor.
  - rewrite Hp3. cbn. lia.
  - rewrite Hp3. cbn. lia.
Qed.

(** After a successful [Open] the invariant holds, with no session handed
    out. *)
Lemma Open_pool_inv a u p d n w0 w :
  Open a u p d n w0 = Ret None w -> pool_inv w [].
Proof.
  intros Hrun. pose proof (clamp_bounds n) as [Hmax Hinit].
  destruct (Open_spec _ _ _ _ _ _ _ Hrun) as (Hm & Hi & ci & cc & rs & rd & Hf).
  destruct Hf as (Hat & Hlrd & Hlen & Hnd & Hv & Hlive).
  exists ci, cc, rs, rd. cbn. rewrite app_nil_r.
  split; [done|]. split; [done|]. split; [done|]. split; [lia|]. by rewrite Hm.
Qed.

Lemma reachable_pool_inv w B : reachable w B -> pool_inv w B.
Proof.
  induction 1 as [a u p d n w0 w Hopen | w B w' B' _ IH Hstep].
  - by eapply Open_pool_inv.
  - by eapply step_pool_inv.
Qed.

(** ** The properties of the pool *)

Lemma pool_inv_sum w B :
  pool_inv w B ->
  (chan_len (cacheConns (pool w)) w + chan_len (idleConns (pool w)) w
   + Z.of_nat (length B) = maxConnNum (pool w))%Z.
Proof.
  intros (ci & cc & rs & rd & Hat & _ & _ & Hlen & Hpos).
  pose proof Hat as (Hi & Hc & _). rewrite Hi, Hc.
  rewrite (chan_len_cache _ _ _ _ _ Hat), (chan_len_idle _ _ _ _ _ Hat). lia.
Qed.


(** In such a state a release or a discard of a session that is handed out
    returns, and [PopConn] returns unless both collections are empty, in
    which case it waits and changes nothing. *)
Lemma operations_return w B :
  reachable w B ->
  (forall B1 a B2 err, B = B1 ++ a :: B2 ->
     (exists w', PushConn (Some a) err w = Ret tt w') /\
     (exists w', closeConn (Some a) w = Ret None w')) /\
  ((exists r w', PopConn w = Ret r w') \/
   (PopConn w = Block w /\ ready w = [] /\ reserved w = [])).
Proof.
  intros Hreach. apply reachable_pool_inv in Hreach.
  destruct Hreach as (ci & cc & rs & rd & Hat & Hnd & Hv & Hlen & Hpos).
  split.
  - intros B1 a B2 err ->.
    assert (valid_ptr w (Some a)) as Hva.
    { rewrite Forall_forall in Hv. apply Hv.
      rewrite map_app, !in_app_iff. cbn. auto. }
    destruct (valid_ptr_lookup _ _ Hva) as (a0 & c & [= <-] & Hc).
    assert (length B1 + S (length B2) = length (B1 ++ a :: B2)) as HlenB by list_len.
    split.
    + destruct err as [e|].
      * destruct (PushConn_err_spec w ci cc rs rd a c e Hat Hc ltac:(lia)) as (w' & E & _).
        eauto.
      * destruct (PushConn_ok_spec w ci cc rs rd a Hat ltac:(lia)) as (w' & E & _).
        eauto.
    + destruct (closeConn_run w ci cc rs rd a c Hat Hc ltac:(lia)) as (w' & E & _).
      eauto.
  - assert (PopConn_result w ci cc rs rd (PopConn w)) as Hres.
    { apply PopConn_spec; [done| |lia].
      rewrite app_assoc in Hv. by apply Forall_app in Hv as [Hv _]. }
    inversion Hres as [? ? ? ? ? ? ? ? ? ? ? ? E|? ? ? ? ? ? ? ? ? E
                      |? ? ? ? ? ? ? ? E|? ? ? ? ? ? ? ? E|? ? E]; subst.
    1-4: left; eauto.
    right. split; [done|].
    by rewrite (pool_at_ready _ _ _ _ _ Hat), (pool_at_reserved _ _ _ _ _ Hat).
Qed.

(** C5. After a successful [Open] the ready collection holds exactly
    [InitConnNum] sessions, each of them live, and the ready and reserved
    collections together hold [maxConnNum] entries; for a positive argument
    [n] the capacity is [n] and the number of sessions connected at once is
    [n] when [n < 16] and [n / 4] otherwise; for an argument that is not
    positive they are 1024 and 16. *)
Theorem Open_fills_the_pool a u p d n w0 w :
  Open a u p d n w0 = Ret None w ->
  chan_len (cacheConns (pool w)) w = InitConnNum (pool w) /\
  Forall (live w) (ready w) /\
  (chan_len (cacheConns (pool w)) w + chan_len (idleConns (pool w)) w
   = maxConnNum (pool w))%Z /\
  ((0 < n)%Z ->
     maxConnNum (pool w) = n /\
     InitConnNum (pool w) = if decide (n < 16)%Z then n else (n / 4)%Z) /\
  ((n <= 0)%Z ->
     maxConnNum (pool w) = 1024%Z /\ InitConnNum (pool w) = 16%Z).
Proof.
  intros Hrun. pose proof (clamp_bounds n) as [Hmax Hinit].
  destruct (Open_spec _ _ _ _ _ _ _ Hrun) as (Hm & Hi & ci & cc & rs & rd & Hf).
  destruct Hf as (Hat & Hlrd & Hlen & Hnd & Hv & Hlive).
  pose proof Hat as (Hic & Hcc & _). rewrite Hic, Hcc.
  rewrite (chan_len_cache _ _ _ _ _ Hat), (chan_len_idle _ _ _ _ _ Hat).
  rewrite (pool_at_ready _ _ _ _ _ Hat).
  rewrite Hm, Hi in *.
  split; [lia|]. split; [done|]. split; [lia|].
  unfold clamp_max, clamp_init, DefaultMaxConnNum, InitConnCount.
  split; intros Hn.
  - rewrite !decide_True by done. split; [done|].
    destruct (decide (n < 16)%Z); [done|]. apply Z.quot_div_nonneg; lia.
  - rewrite !decide_False by lia. done.
Qed.


(** C8. On a session that is clean (no transaction, autocommit enabled, the
    default charset) [tryReuse] returns no error and makes three calls, which
    read the state of the session; none of them is a rollback, an [exec] or a
    [SetCharset], and the session and the pool are as before. *)
Theorem tryReuse_clean_session w a c :
  heap w !! a = Some c ->
  clean c ->
  exists w',
    tryReuse (Some a) w = Ret None w' /\
    heap w' = heap w /\ chans w' = chans w /\ pool w' = pool w /\
    trace w' = trace w ++ [CallIsInTransaction a; CallIsAutoCommit a; CallGetCharset a] /\
    Forall (fun x => is_mutation x = false)
           [CallIsInTransaction a; CallIsAutoCommit a; CallGetCharset a].
Proof.
  intros Hc (Htx & Hac & Hcs).
  unfold tryReuse, Conn_IsInTransaction, Conn_IsAutoCommit, Conn_GetCharset,
    field_call, bind, ret.
  cbn. rewrite Hc. cbn. rewrite Htx. cbn. rewrite Hc. cbn. rewrite Hac. cbn.
  rewrite Hc. cbn. rewrite Hcs. rewrite decide_False by (intros H; by apply H).
  eexists. split; [reflexivity|]. cbn.
  split; [done|]. split; [done|]. split; [done|].
  split; [by rewrite <- !app_assoc|]. by repeat constructor.
Qed.

(** C9. [PushConn] of the [nil] session returns at once, and the pool, the
    channels and everything else are as before. *)
Theorem PushConn_nil_is_noop w err :
  PushConn None err w = Ret tt w.
Proof. reflexivity. Qed.

(** C10. After [Close] has set the channel fields to [nil], [PushConn] of a
    session closes that session and returns; it reports no error, and the
    fields of the pool and the channels are as before: the slot of the
    session is in neither collection. *)
Theorem PushConn_after_Close w a c err :
  cacheConns (pool w) = None ->
  heap w !! a = Some c ->
  exists w',
    PushConn (Some a) err w = Ret tt w' /\
    pool w' = pool w /\ chans w' = chans w /\
    trace w' = trace w ++ [CallClose a] /\
    heap w' !! a = Some (mkConn false (inTransaction c) (autoCommit c)
                                (charset c) (pkgErr c)) /\
    (forall b, b <> a -> heap w' !! b = heap w !! b).
Proof.
  intros Hnil Hc. unfold PushConn.
  rewrite (bind_Ret getCacheConns _ w (cacheConns (pool w)) w eq_refl).
  rewrite Hnil.
  destruct (Conn_Close_run a c w Hc) as (w' & E & (Hch & Hp & Hl & Ht & Hf) & H).
  rewrite (bind_Ret _ _ _ _ _ E). exists w'. done.
Qed.

(** *** Shutdown *)

(** On a pool whose channel fields are [nil] already, [Close] returns
    success and does nothing else. *)
Lemma Close_closed w :
  cacheConns (pool w) = None \/ idleConns (pool w) = None ->
  Close w = Ret None (set_pool (with_chans None None (pool w)) w).
Proof.
  unfold Close, bind, get, modify, ret. cbn.
  intros [H|H]; rewrite H; [done|]. by destruct (cacheConns (pool w)).
Qed.

(** When both are [nil], that pool is the pool as it was. *)
Lemma Close_twice w :
  cacheConns (pool w) = None -> idleConns (pool w) = None ->
  Close w = Ret None w.
Proof.
  intros Hc Hi. rewrite Close_closed by auto. f_equal.
  destruct w as [h c [a u p d s m i ic cc ch] t]. cbn in *. by subst.
Qed.

(** On such a pool [PopConn] returns the error of a closed pool. *)
Lemma PopConn_closed w :
  cacheConns (pool w) = None \/ idleConns (pool w) = None ->
  PopConn w = Ret (None, Some ErrDatabaseClose) w.
Proof.
  unfold PopConn, bind, getConns. cbn.
  intros [H|H]; rewrite H; [done|]. by destruct (cacheConns (pool w)).
Qed.


(** C2 (as the code behaves). When the ready collection of an open pool is
    not empty, [Close] sets both channel fields to [nil], closes the first
    ready session, and then parks for ever in [closeConn], on the send to the
    reserved channel that it has just set to [nil]: it does not return, and
    the other ready sessions stay as they are. *)
Theorem Close_parks_on_ready_session w ci cc rs rd a c :
  pool_at w ci cc rs (Some a :: rd) ->
  heap w !! a = Some c ->
  exists w',
    Close w = Block w' /\
    cacheConns (pool w') = None /\ idleConns (pool w') = None /\
    trace w' = trace w ++ [CallClose a] /\
    (forall b, b <> a -> heap w' !! b = heap w !! b).
Proof.
  intros Hat Hc. pose proof (pool_at_lt _ _ _ _ _ Hat) as [Hlti Hltc].
  destruct Hat as (Hi & Hcc & Hne & Hci & Hcch).
  unfold Close.
  rewrite (bind_Ret get _ w w w eq_refl). rewrite Hi, Hcc.
  rewrite (bind_Ret (modify _) _ w tt _ eq_refl).
  rewrite (bind_Ret (modify _) _ _ tt _ eq_refl).
  match goal with |- context [bind (close_chan _) _ ?x] => set (w2 := x) end.
  assert (chans w2 = chans w /\ heap w2 = heap w /\ trace w2 = trace w /\
          idleConns (pool w2) = None /\ cacheConns (pool w2) = None)
    as (Hch2 & Hh2 & Ht2 & Hi2 & Hc2) by done.
  clearbody w2.
  assert (close_chan (Some cc) w2 =
          Ret tt (set_chans (<[cc := mkChan (Some a :: rd)
                                        (Z.to_nat (maxConnNum (pool w))) true]> (chans w2)) w2))
    as E by (unfold close_chan; by rewrite Hch2, Hcch).
  rewrite (bind_Ret _ _ _ _ _ E).
  match goal with |- context [bind get _ ?x] => set (w3 := x) end.
  rewrite (bind_Ret get _ w3 w3 w3 eq_refl).
  assert (chans w3 !! cc = Some (mkChan (Some a :: rd) (Z.to_nat (maxConnNum (pool w))) true))
    as Hcc3 by (cbn; rewrite list_lookup_insert_eq; [done|by rewrite Hch2]).
  assert (chan_buf (Some cc) w3 = Some a :: rd) as -> by (unfold chan_buf; by rewrite Hcc3).
  cbn [Close_range].
  assert (exists w4, recv (Some cc) w3 = Ret (Some a) w4 /\
                     heap w4 = heap w /\ pool w4 = pool w2 /\ trace w4 = trace w)
    as (w4 & E4 & Hh4 & Hp4 & Ht4).
  { unfold recv. rewrite Hcc3. eexists. split; [reflexivity|]. done. }
  destruct (closeConn_nil_blocks w4 a c) as (w5 & E5 & (Hch5 & Hp5 & Hl5 & Ht5 & Hf5) & H5).
  { by rewrite Hp4. }
  { by rewrite Hh4. }
  exists w5. split.
  { apply bind_Block. rewrite (bind_Ret _ _ _ _ _ E4). by apply bind_Block. }
  rewrite Hp5, Hp4, Ht5, Ht4. split; [done|]. split; [done|]. split; [done|].
  intros b Hb. rewrite Hf5 by done. by rewrite Hh4.
Qed.

(** *** The handle *)

(** A handle that wraps no session: [Close] does nothing. *)
Lemma BackendConn_Close_nil w :
  BackendConn_Close (mkBackendConn None) w = Ret tt w.
Proof. reflexivity. Qed.

(** [Close] of a handle is the discard of its session when the session has
    a protocol error, and its release otherwise. *)
Lemma BackendConn_Close_unfold w a c :
  heap w !! a = Some c ->
  BackendConn_Close (mkBackendConn (Some a)) w =
  match pkgErr c with
  | Some _ => (run closeConn (Some a) in ret tt) w
  | None => PushConn (Some a) None w
  end.
Proof.
  intros Hc. unfold BackendConn_Close. cbn [bc_Conn].
  rewrite (bind_Ret get _ w w w eq_refl). rewrite Hc. by destruct (pkgErr c).
Qed.

Lemma closeConn_returns_nil co w r w' : closeConn co w = Ret r w' -> r = None.
Proof.
  unfold closeConn. destruct co as [a|]; [|by intros [= <- _]].
  intros (? & w1 & _ & (? & w2 & _ & (? & w3 & _ & [= <- _])%bind_inv)%bind_inv)%bind_inv.
  done.
Qed.

(** [Close] of the handle of a session that is handed out is a step of the
    caller: the discard or the release of that session. *)
Lemma BackendConn_Close_step w a c w' B1 B2 :
  heap w !! a = Some c ->
  BackendConn_Close (mkBackendConn (Some a)) w = Ret tt w' ->
  step (w, B1 ++ a :: B2) (w', B1 ++ B2).
Proof.
  intros Hc. rewrite (BackendConn_Close_unfold w a c Hc).
  destruct (pkgErr c) as [e|]; [|by apply step_release].
  intros (r & w1 & E & [= <-])%bind_inv.
  apply closeConn_returns_nil in E as Hr. subst r. by apply step_discard.
Qed.

(** [GetConn] is [PopConn] with the session wrapped in a handle. *)
Lemma GetConn_PopConn w :
  GetConn w =
  match PopConn w with
  | Ret (co, None) w' => Ret (Some (mkBackendConn co), None) w'
  | Ret (_, Some e) w' => Ret (None, Some e) w'
  | Block w' => Block w'
  | Panic w' => Panic w'
  end.
Proof.
  unfold GetConn, bind. destruct (PopConn w) as [[co [e|]] w'|w'|w']; done.
Qed.

(** C3 (as the code behaves). [Close] leaves the handle as it is, so a
    second [Close] of the same handle releases the session once more: after
    two calls the ready collection holds the same session twice. *)
Theorem BackendConn_Close_twice_releases_twice w ci cc rs rd a c :
  pool_at w ci cc rs rd ->
  heap w !! a = Some c ->
  pkgErr c = None ->
  S (length rd) < Z.to_nat (maxConnNum (pool w)) ->
  exists w1 w2,
    BackendConn_Close (mkBackendConn (Some a)) w = Ret tt w1 /\
    BackendConn_Close (mkBackendConn (Some a)) w1 = Ret tt w2 /\
    ready w1 = rd ++ [Some a] /\
    ready w2 = (rd ++ [Some a]) ++ [Some a].
Proof.
  intros Hat Hc Herr Hlt.
  destruct (PushConn_ok_spec w ci cc rs rd a Hat ltac:(lia))
    as (w1 & E1 & Hat1 & Hh1 & Hp1 & _).
  destruct (PushConn_ok_spec w1 ci cc rs (rd ++ [Some a]) a Hat1)
    as (w2 & E2 & Hat2 & Hh2 & Hp2 & _).
  { rewrite Hp1, length_app. cbn. lia. }
  exists w1, w2.
  rewrite (BackendConn_Close_unfold w a c Hc), Herr.
  rewrite (BackendConn_Close_unfold w1 a c) by (by rewrite Hh1). rewrite Herr.
  split; [done|]. split; [done|].
  by rewrite (pool_at_ready _ _ _ _ _ Hat1), (pool_at_ready _ _ _ _ _ Hat2).
Qed.

(** *** The failure of the health-check session in [Open] *)


(** *** Discarded sessions *)

Lemma step_without_reserved a s s' :
  rtc (step_without a) s s' ->
  reachable s.1 s.2 -> Some a ∈ reserved s.1 ->
  reachable s'.1 s'.2 /\ Some a ∈ reserved s'.1.
Proof.
  induction 1 as [s|[w B] [w' B'] s'' [Hstep Hnot] _ IH]; [done|].
  cbn in *. intros Hreach Hin. apply IH.
  - by eapply reach_step.
  - pose proof (reachable_pool_inv _ _ Hreach) as Hinv.
    pose proof Hinv as (ci & cc & rs & rd & Hat & _).
    destruct (step_effect _ _ _ _ _ _ _ _ Hinv Hstep Hat)
      as (rs' & rd' & Hat' & _ & _ & _ & Hres & _).
    rewrite (pool_at_reserved _ _ _ _ _ Hat) in Hin.
    rewrite (pool_at_reserved _ _ _ _ _ Hat').
    destruct (Hres _ Hin) as [?|(b & [= <-] & ->)]; [done|].
    exfalso. apply Hnot. by left.
Qed.

(** C4 (amended). When a caller closes the handle of a session that has a
    protocol error, the session is closed and its [Conn] is queued as a
    reserved slot, not as a ready session.  It stays a reserved slot for as
    long as it is not handed out, and a [PopConn] that hands out this same
    [Conn] has taken it from the reserved collection and has connected it
    again: the one call it made is [Connect] on it, and the session is as
    new. *)
Theorem discarded_session_is_reconnected w B1 a B2 c :
  reachable w (B1 ++ a :: B2) ->
  heap w !! a = Some c ->
  pkgErr c <> None ->
  exists w1,
    BackendConn_Close (mkBackendConn (Some a)) w = Ret tt w1 /\
    Some a ∈ reserved w1 /\ (Some a ∉ ready w1) /\
    heap w1 !! a = Some (mkConn false (inTransaction c) (autoCommit c)
                                (charset c) (pkgErr c)) /\
    forall w2 B w3,
      rtc (step_without a) (w1, B1 ++ B2) (w2, B) ->
      PopConn w2 = Ret (Some a, None) w3 ->
      ready w2 = [] /\ (exists rs', reserved w2 = Some a :: rs') /\
      trace w3 = trace w2 ++ [CallConnect a (addr (pool w2)) (user (pool w2))
                                          (password (pool w2)) (db (pool w2))] /\
      heap w3 !! a = Some (mkConn true false true DEFAULT_CHARSET None).
Proof.
  intros Hreach Hc Herr.
  pose proof (reachable_pool_inv _ _ Hreach) as Hinv.
  pose proof Hinv as (ci & cc & rs & rd & Hat & Hnd & Hv & Hlen & Hpos).
  assert (length B1 + S (length B2) = length (B1 ++ a :: B2)) as HlenB by list_len.
  destruct (closeConn_run w ci cc rs rd a c Hat Hc ltac:(lia))
    as (w1 & E & Hat1 & Heff & Hc1).
  assert (reachable w1 (B1 ++ B2)) as Hreach1.
  { eapply reach_step; [exact Hreach|]. by apply step_discard. }
  assert (Some a ∈ reserved w1) as Hin1.
  { rewrite (pool_at_reserved _ _ _ _ _ Hat1). apply elem_of_app. right. by left. }
  assert (forall w2 B, reachable w2 B -> Some a ∈ reserved w2 -> Some a ∉ ready w2) as Hsep.
  { intros w2 B Hr2 Hin2.
    destruct (reachable_pool_inv _ _ Hr2) as (ci2 & cc2 & rs2 & rd2 & Hat2 & Hnd2 & _).
    rewrite (pool_at_reserved _ _ _ _ _ Hat2) in Hin2.
    rewrite (pool_at_ready _ _ _ _ _ Hat2).
    apply list.NoDup_app in Hnd2 as (_ & Hdis & _).
    intros Hrd. eapply Hdis; [exact Hrd|]. apply elem_of_app. by left. }
  exists w1. split.
  { rewrite (BackendConn_Close_unfold w a c Hc).
    destruct (pkgErr c); [|done]. by rewrite (bind_Ret _ _ _ _ _ E). }
  split; [done|]. split; [by eapply Hsep|]. split; [done|].
  intros w2 B w3 Hrun Hop.
  destruct (step_without_reserved a _ _ Hrun Hreach1 Hin1) as [Hreach2 Hin2].
  cbn in Hreach2, Hin2.
  pose proof (Hsep _ _ Hreach2 Hin2) as Hnot2.
  destruct (reachable_pool_inv _ _ Hreach2)
    as (ci2 & cc2 & rs2 & rd2 & Hat2 & Hnd2 & Hv2 & Hlen2 & Hpos2).
  assert (PopConn_result w2 ci2 cc2 rs2 rd2 (PopConn w2)) as Hres.
  { apply PopConn_spec; [done| |lia].
    rewrite app_assoc in Hv2. by apply Forall_app in Hv2 as [Hv2 _]. }
  rewrite Hop in Hres.
  rewrite (pool_at_ready _ _ _ _ _ Hat2) in *.
  rewrite (pool_at_reserved _ _ _ _ _ Hat2) in *.
  inversion Hres as [a' rd' t w0 w4 -> _ _ _ _ _ _
                    | | a' rs' w4 -> -> _ (_ & _ & Ht & _) Hfresh | |]; subst.
  - exfalso. apply Hnot2. by left.
  - split; [done|]. split; [by eexists|]. done.
Qed.

(** ** More on shutdown *)

Lemma send_frame c v w r w' :
  send c v w = Ret r w' ->
  pool w' = pool w /\ heap w' = heap w /\ trace w' = trace w.
Proof. unfold send. intros H. repeat case_match; by simplify_eq. Qed.

Lemma recv_frame c w r w' :
  recv c w = Ret r w' ->
  pool w' = pool w /\ heap w' = heap w /\ trace w' = trace w.
Proof. unfold recv. intros H. repeat case_match; by simplify_eq. Qed.

Lemma close_chan_frame c w r w' :
  close_chan c w = Ret r w' ->
  pool w' = pool w /\ heap w' = heap w /\ trace w' = trace w.
Proof. unfold close_chan. intros H. repeat case_match; by simplify_eq. Qed.

(** Once the reserved channel field is [nil], [closeConn] returns for the
    [nil] session only. *)
Lemma closeConn_nil_returns co w r w' :
  idleConns (pool w) = None ->
  closeConn co w = Ret r w' -> co = None /\ w' = w.
Proof.
  intros Hnil. unfold closeConn. destruct co as [a|]; [|by intros [= _ <-]].
  intros (? & w1 & E1 & (? & w2 & E2 & (? & w3 & E3 & _)%bind_inv)%bind_inv)%bind_inv.
  exfalso. unfold Conn_Close in E1. destruct (heap w !! a); [|done].
  injection E1 as _ <-. injection E2 as <- <-. cbn in E3. by rewrite Hnil in E3.
Qed.

Lemma Close_range_nil_frame c l : forall w r w',
  idleConns (pool w) = None ->
  Close_range c l w = Ret r w' ->
  pool w' = pool w /\ heap w' = heap w /\ trace w' = trace w.
Proof.
  induction l as [|p l IH]; intros w r w' Hnil; cbn [Close_range].
  - by intros [= _ <-].
  - intros (conn & w1 & E1 & (? & w2 & E2 & H)%bind_inv)%bind_inv.
    apply recv_frame in E1 as (Hp1 & Hh1 & Ht1).
    apply closeConn_nil_returns in E2 as [_ ->]; [|by rewrite Hp1].
    apply IH in H as (Hp & Hh & Ht); [|by rewrite Hp1].
    by rewrite Hp, Hh, Ht.
Qed.

Lemma Close_returned w r w' :
  Close w = Ret r w' ->
  r = None /\
  cacheConns (pool w') = None /\ idleConns (pool w') = None /\
  heap w' = heap w /\ trace w' = trace w.
Proof.
  destruct (cacheConns (pool w)) as [cc|] eqn:Hc;
    [destruct (idleConns (pool w)) as [ci|] eqn:Hi|].
  - unfold Close. rewrite (bind_Ret get _ w w w eq_refl). rewrite Hi, Hc.
    rewrite (bind_Ret (modify _) _ w tt _ eq_refl).
    rewrite (bind_Ret (modify _) _ _ tt _ eq_refl).
    intros (? & w1 & E1 & (w1' & ? & [= <- <-] & (? & w2 & E2 & (? & w3 & E3 & [= <- <-])%bind_inv)%bind_inv)%bind_inv)%bind_inv.
    apply close_chan_frame in E1 as (Hp1 & Hh1 & Ht1).
    apply Close_range_nil_frame in E2 as (Hp2 & Hh2 & Ht2); [|by rewrite Hp1].
    apply close_chan_frame in E3 as (Hp3 & Hh3 & Ht3).
    rewrite Hp3, Hp2, Hp1, Hh3, Hh2, Hh1, Ht3, Ht2, Ht1. done.
  - rewrite Close_closed by auto. by intros [= <- <-].
  - rewrite Close_closed by auto. by intros [= <- <-].
Qed.

(** X1. [Close] has no error to report, and a [Close] that returns has
    set both channel fields to [nil] and has made no call on any session: no
    session was closed by it. *)
Theorem Close_returns_nil_and_closes_nothing w r w' :
  Close w = Ret r w' ->
  r = None /\
  cacheConns (pool w') = None /\ idleConns (pool w') = None /\
  IdleConnCount w' = 0%Z /\
  heap w' = heap w /\ trace w' = trace w.
Proof.
  intros H. apply Close_returned in H as (-> & Hc & Hi & Hh & Ht).
  unfold IdleConnCount. rewrite Hc. done.
Qed.

(** X2. After a [Close] that has returned, [GetConn] and [PopConn] return
    [ErrDatabaseClose] with no handle and no session, and change nothing. *)
Theorem GetConn_after_Close w r w' :
  Close w = Ret r w' ->
  GetConn w' = Ret (None, Some ErrDatabaseClose) w' /\
  PopConn w' = Ret (None, Some ErrDatabaseClose) w'.
Proof.
  intros H. apply Close_returned in H as (_ & Hc & _).
  assert (PopConn w' = Ret (None, Some ErrDatabaseClose) w') as E
    by (apply PopConn_closed; auto).
  split; [|done]. unfold GetConn. by rewrite (bind_Ret _ _ _ _ _ E).
Qed.

(** X3. [Close] is idempotent: after a [Close] that has returned, [Close]
    returns [nil] again and changes nothing. *)
Theorem Close_is_idempotent w r w' :
  Close w = Ret r w' -> Close w' = Ret None w'.
Proof.
  intros H. apply Close_returned in H as (_ & Hc & Hi & _). by apply Close_twice.
Qed.

(** ** More on the invariant *)

(** X4. Between [Open] and [Close] no [Conn] is in two places: the ready
    sessions, the reserved slots and the sessions handed out are pairwise
    distinct, so a session that is handed out is in neither collection and
    is not handed out to a second caller. *)
Theorem sessions_are_exclusive w B :
  reachable w B ->
  NoDup (ready w ++ reserved w ++ map Some B) /\
  NoDup B /\
  (forall a, a ∈ B -> (Some a ∉ ready w) /\ (Some a ∉ reserved w)).
Proof.
  intros Hreach. apply reachable_pool_inv in Hreach.
  destruct Hreach as (ci & cc & rs & rd & Hat & Hnd & _).
  rewrite (pool_at_ready _ _ _ _ _ Hat), (pool_at_reserved _ _ _ _ _ Hat).
  split; [done|].
  apply list.NoDup_app in Hnd as (Hrd & Hdis1 & Hnd).
  apply list.NoDup_app in Hnd as (Hrs & Hdis2 & HB).
  split.
  - clear -HB. induction B as [|b B IH]; [constructor|].
    cbn in HB. apply list.NoDup_cons in HB as [Hb HB].
    apply list.NoDup_cons. split; [|by apply IH].
    intros Hin. apply Hb. apply list_elem_of_In, in_map, list_elem_of_In, Hin.
  - intros a Ha.
    assert (Some a ∈ map Some B) as Hin
      by (by apply list_elem_of_In, in_map, list_elem_of_In).
    split; intros Hx.
    + eapply Hdis1; [exact Hx|]. apply elem_of_app. by right.
    + by eapply Hdis2.
Qed.

(** X5. Between [Open] and [Close] the sessions handed out and the ready
    sessions that [IdleConnCount] counts never exceed [maxConnNum]
    together. *)
Theorem outstanding_sessions_are_bounded w B :
  reachable w B ->
  (0 <= IdleConnCount w)%Z /\
  (Z.of_nat (length B) + IdleConnCount w <= maxConnNum (pool w))%Z.
Proof.
  intros Hreach. apply reachable_pool_inv in Hreach.
  pose proof (pool_inv_sum _ _ Hreach) as Hsum.
  destruct Hreach as (ci & cc & rs & rd & Hat & _).
  unfold IdleConnCount. pose proof Hat as (Hi & Hc & _). rewrite Hi, Hc in *.
  rewrite (chan_len_cache _ _ _ _ _ Hat), (chan_len_idle _ _ _ _ _ Hat) in *. lia.
Qed.

(** ** More on sanitation *)

(** What [tryReuse] has done when it returns: with no error, the calls it
    made, in their order, and the state of the session; with an error, the
    call that the backend refused, which is the last one. *)
Lemma tryReuse_cases a c w r w' :
  heap w !! a = Some c ->
  tryReuse (Some a) w = Ret r w' ->
  chans w' = chans w /\ pool w' = pool w /\
  match r with
  | None =>
      trace w' = trace w
                 ++ CallIsInTransaction a
                    :: (if inTransaction c then [CallRollback a] else [])
                 ++ CallIsAutoCommit a
                    :: (if autoCommit c then [] else [CallExec a "set autocommit = 1"])
                 ++ CallGetCharset a
                    :: (if decide (charset c = DEFAULT_CHARSET) then []
                        else [CallSetCharset a DEFAULT_CHARSET]) /\
      heap w' = <[a := mkConn (connected c) false true DEFAULT_CHARSET (pkgErr c)]> (heap w)
  | Some e =>
      exists t x,
        trace w' = trace w ++ t ++ [x] /\
        is_mutation x = true /\
        reply env (trace w ++ t) x = Some e /\
        Forall (fun y => is_sanitation y = true) (t ++ [x])
  end.
Proof.
  intros Hc. assert (a < length (heap w)) as Hlt by (by eapply lookup_lt_Some).
  destruct c as [con tx ac cs pe]. cbn [connected inTransaction autoCommit charset pkgErr].
  unfold tryReuse, Conn_IsInTransaction, Conn_Rollback, Conn_IsAutoCommit, Conn_exec,
    Conn_GetCharset, Conn_SetCharset, field_call, backend_call, bind, ret.
  tr_step Hc.
  destruct tx; tr_step Hc.
  - destruct (reply env (trace w ++ [CallIsInTransaction a]) (CallRollback a))
      as [e1|] eqn:R1; tr_step Hc.
    { tr_fail [CallIsInTransaction a] (CallRollback a). }
    destruct ac; tr_step Hc.
    + destruct (decide (cs <> DEFAULT_CHARSET)) as [Hne|Heq]; tr_step Hc.
      * destruct (reply env _ (CallSetCharset a DEFAULT_CHARSET)) as [e3|] eqn:R3.
        { tr_fail [CallIsInTransaction a; CallRollback a; CallIsAutoCommit a; CallGetCharset a]
            (CallSetCharset a DEFAULT_CHARSET). }
        rewrite (decide_False (P := cs = DEFAULT_CHARSET)) by done. tr_ok.
      * apply dec_stable in Heq. subst cs. rewrite decide_True by done. tr_ok.
    + destruct (reply env _ (CallExec a "set autocommit = 1")) as [e2|] eqn:R2; tr_step Hc.
      { tr_fail [CallIsInTransaction a; CallRollback a; CallIsAutoCommit a]
          (CallExec a "set autocommit = 1"). }
      destruct (decide (cs <> DEFAULT_CHARSET)) as [Hne|Heq]; tr_step Hc.
      * destruct (reply env _ (CallSetCharset a DEFAULT_CHARSET)) as [e3|] eqn:R3.
        { tr_fail [CallIsInTransaction a; CallRollback a; CallIsAutoCommit a;
                   CallExec a "set autocommit = 1"; CallGetCharset a]
            (CallSetCharset a DEFAULT_CHARSET). }
        rewrite (decide_False (P := cs = DEFAULT_CHARSET)) by done. tr_ok.
      * apply dec_stable in Heq. subst cs. rewrite decide_True by done. tr_ok.
  - destruct ac; tr_step Hc.
    + destruct (decide (cs <> DEFAULT_CHARSET)) as [Hne|Heq]; tr_step Hc.
      * destruct (reply env _ (CallSetCharset a DEFAULT_CHARSET)) as [e3|] eqn:R3.
        { tr_fail [CallIsInTransaction a; CallIsAutoCommit a; CallGetCharset a]
            (CallSetCharset a DEFAULT_CHARSET). }
        rewrite (decide_False (P := cs = DEFAULT_CHARSET)) by done. tr_ok.
      * apply dec_stable in Heq. subst cs. rewrite decide_True by done. tr_ok.
    + destruct (reply env _ (CallExec a "set autocommit = 1")) as [e2|] eqn:R2; tr_step Hc.
      { tr_fail [CallIsInTransaction a; CallIsAutoCommit a]
          (CallExec a "set autocommit = 1"). }
      destruct (decide (cs <> DEFAULT_CHARSET)) as [Hne|Heq]; tr_step Hc.
      * destruct (reply env _ (CallSetCharset a DEFAULT_CHARSET)) as [e3|] eqn:R3.
        { tr_fail [CallIsInTransaction a; CallIsAutoCommit a;
                   CallExec a "set autocommit = 1"; CallGetCharset a]
            (CallSetCharset a DEFAULT_CHARSET). }
        rewrite (decide_False (P := cs = DEFAULT_CHARSET)) by done. tr_ok.
      * apply dec_stable in Heq. subst cs. rewrite decide_True by done. tr_ok.
Qed.

(** The calls on a session do not look at the channels. *)
Lemma backend_call_chans co mk upd ch w :
  backend_call co mk upd (set_chans ch w) = outcome_chans ch (backend_call co mk upd w).
Proof.
  unfold backend_call. destruct co as [a|]; [|done]. cbn [heap set_chans trace].
  destruct (heap w !! a); [|done]. by destruct (reply env (trace w) (mk a)).
Qed.

Lemma field_call_chans {A} co mk (rd : Conn -> A) ch w :
  field_call co mk rd (set_chans ch w) = outcome_chans ch (field_call co mk rd w).
Proof.
  unfold field_call. destruct co as [a|]; [|done]. cbn [heap set_chans].
  by destruct (heap w !! a).
Qed.

Lemma bind_chans {A B} (m : M A) (k : A -> M B) ch w :
  (forall w, m (set_chans ch w) = outcome_chans ch (m w)) ->
  (forall a w, k a (set_chans ch w) = outcome_chans ch (k a w)) ->
  bind m k (set_chans ch w) = outcome_chans ch (bind m k w).
Proof. intros Hm Hk. unfold bind. rewrite Hm. destruct (m w); cbn; [apply Hk|done|done]. Qed.

Lemma tryReuse_chans co ch w :
  tryReuse co (set_chans ch w) = outcome_chans ch (tryReuse co w).
Proof.
  unfold tryReuse.
  apply bind_chans; [intros; apply field_call_chans|].
  intros inTx w1. apply bind_chans; [intros; destruct inTx; [apply backend_call_chans|done]|].
  intros [e|] w2; [done|].
  apply bind_chans; [intros; apply field_call_chans|].
  intros ac w3. apply bind_chans; [intros; destruct ac; [done|apply backend_call_chans]|].
  intros [e|] w4; [done|].
  apply bind_chans; [intros; apply field_call_chans|].
  intros cs w5. destruct (decide (cs <> DEFAULT_CHARSET)); [|done].
  apply bind_chans; [intros; apply backend_call_chans|].
  by intros [e|] w6.
Qed.

(** [PopConn] on an open pool: the session it receives, and from where. *)
Lemma PopConn_at_cache w ci cc rs rd v :
  pool_at w ci cc rs (v :: rd) ->
  PopConn w =
  PopConn_reuse v
    (set_chans (<[cc := mkChan rd (Z.to_nat (maxConnNum (pool w))) false]> (chans w)) w).
Proof.
  intros Hat. unfold PopConn.
  rewrite (bind_Ret getConns _ w (cacheConns (pool w), idleConns (pool w)) w eq_refl).
  pose proof Hat as (Hi & Hc & _). rewrite Hi, Hc.
  rewrite (bind_Ret get _ w w w eq_refl).
  rewrite (chan_len_cache _ _ _ _ _ Hat).
  rewrite decide_True by (cbn; lia).
  by rewrite (bind_Ret _ _ _ _ _ (recv_cache _ _ _ _ _ _ Hat)).
Qed.

Lemma PopConn_at_idle w ci cc rs v :
  pool_at w ci cc (v :: rs) [] ->
  PopConn w =
  PopConn_fresh v
    (set_chans (<[ci := mkChan rs (Z.to_nat (maxConnNum (pool w))) false]> (chans w)) w).
Proof.
  intros Hat. unfold PopConn.
  rewrite (bind_Ret getConns _ w (cacheConns (pool w), idleConns (pool w)) w eq_refl).
  pose proof Hat as (Hi & Hc & _). rewrite Hi, Hc.
  rewrite (bind_Ret get _ w w w eq_refl).
  rewrite (chan_len_cache _ _ _ _ _ Hat).
  rewrite (recv_ready_cache _ _ _ _ _ Hat), (recv_ready_idle _ _ _ _ _ Hat).
  rewrite decide_False by (cbn; lia).
  by rewrite (bind_Ret _ _ _ _ _ (recv_idle _ _ _ _ _ _ Hat)).
Qed.

(** X6.  When [tryReuse] returns [nil] it has made its calls in the order
    of the source: the transaction is tested and rolled back first, then
    autocommit is tested and enabled, then the charset is tested and
    reset; each corrective call is made only where its test asked for it.
    The session is then clean, its connection as it was, and no other
    session, channel or field of the pool has changed. *)
Theorem tryReuse_success_sanitizes a c w w' :
  heap w !! a = Some c ->
  tryReuse (Some a) w = Ret None w' ->
  trace w' = trace w
             ++ CallIsInTransaction a
                :: (if inTransaction c then [CallRollback a] else [])
             ++ CallIsAutoCommit a
                :: (if autoCommit c then [] else [CallExec a "set autocommit = 1"])
             ++ CallGetCharset a
                :: (if decide (charset c = DEFAULT_CHARSET) then []
                    else [CallSetCharset a DEFAULT_CHARSET]) /\
  (exists c', heap w' !! a = Some c' /\ clean c' /\
              connected c' = connected c /\ pkgErr c' = pkgErr c) /\
  (forall b, b <> a -> heap w' !! b = heap w !! b) /\
  chans w' = chans w /\ pool w' = pool w.
Proof.
  intros Hc E. destruct (tryReuse_cases a c w None w' Hc E) as (Hch & Hp & Ht & Hh).
  split; [exact Ht|]. split; [|split; [|done]].
  - eexists. split.
    + rewrite Hh. apply list_lookup_insert_eq. by eapply lookup_lt_Some.
    + done.
  - intros b Hb. rewrite Hh. by apply list_lookup_insert_ne.
Qed.

(** X7.  When [tryReuse] returns an error, that error is the backend's
    answer to the last call [tryReuse] made, and that call is one of the
    corrective calls (rollback, the autocommit statement, the charset
    reset): [tryReuse] stops at the first failure.  It does not close the
    session and leaves the channels and the fields of the pool alone. *)
Theorem tryReuse_error_is_the_refused_call a c w e w' :
  heap w !! a = Some c ->
  tryReuse (Some a) w = Ret (Some e) w' ->
  (exists t x,
     trace w' = trace w ++ t ++ [x] /\
     is_mutation x = true /\
     reply env (trace w ++ t) x = Some e /\
     Forall (fun y => is_sanitation y = true) (t ++ [x]) /\
     CallClose a ∉ t ++ [x]) /\
  chans w' = chans w /\ pool w' = pool w.
Proof.
  intros Hc E.
  destruct (tryReuse_cases a c w (Some e) w' Hc E) as (Hch & Hp & t & x & Ht & Hm & Hr & F).
  split; [|done]. exists t, x. repeat (split; [done|]).
  intros Hin. rewrite list.Forall_forall in F. by specialize (F _ Hin).
Qed.

(** X8.  [PopConn] on a pool with no ready session whose attempt to connect
    the reserved slot fails: it returns the backend's error and no session,
    after exactly two calls on that slot (the connect, then a close), and
    the slot goes back to the end of the reserved collection: the capacity
    is kept. *)
Theorem PopConn_connect_failure_keeps_the_slot w ci cc rs a c e :
  pool_at w ci cc (Some a :: rs) [] ->
  heap w !! a = Some c ->
  length rs < Z.to_nat (maxConnNum (pool w)) ->
  reply env (trace w) (CallConnect a (addr (pool w)) (user (pool w))
                                   (password (pool w)) (db (pool w))) = Some e ->
  exists w',
    PopConn w = Ret (None, Some e) w' /\
    pool_at w' ci cc (rs ++ [Some a]) [] /\
    trace w' = trace w ++ [CallConnect a (addr (pool w)) (user (pool w))
                                       (password (pool w)) (db (pool w));
                           CallClose a] /\
    heap w' !! a = Some (mkConn false (inTransaction c) (autoCommit c)
                                (charset c) (pkgErr c)) /\
    (forall b, b <> a -> heap w' !! b = heap w !! b).
Proof.
  intros Hat Hc Hlt Hr. rewrite (PopConn_at_idle _ _ _ _ _ Hat).
  pose proof (pool_at_set_idle _ _ _ _ _ rs Hat) as Hat1.
  match goal with |- context [PopConn_fresh _ ?x] => set (w1 := x) in * end.
  assert (heap w1 = heap w) as Hh1 by done.
  assert (pool w1 = pool w) as Hp1 by done.
  assert (trace w1 = trace w) as Ht1 by done.
  clearbody w1.
  unfold PopConn_fresh. rewrite (bind_Ret get _ w1 w1 w1 eq_refl).
  assert (heap w1 !! a = Some c) as Hc1 by (by rewrite Hh1).
  destruct (backend_call_run a c
    (fun l => CallConnect l (addr (pool w1)) (user (pool w1)) (password (pool w1)) (db (pool w1)))
    (fun _ => mkConn true false true DEFAULT_CHARSET None) w1 Hc1) as (w2 & E & R & H).
  unfold Conn_Connect. rewrite (bind_Ret _ _ _ _ _ E).
  rewrite Ht1, Hp1, Hr in *.
  assert (pool_at w2 ci cc rs []) as Hat2.
  { destruct R as (Hch & Hp2 & _). by eapply pool_at_ext. }
  destruct R as (Hch2 & Hp2 & Hl2 & Ht2 & Hf2).
  destruct (closeConn_run w2 ci cc rs [] a c Hat2 H) as (w3 & E3 & Hat3 & R3 & H3).
  { by rewrite Hp2, Hp1. }
  rewrite (bind_Ret _ _ _ _ _ E3).
  destruct R3 as (Hp3 & Hl3 & Ht3 & Hf3).
  exists w3. split; [done|]. split; [done|].
  split; [by rewrite Ht3, Ht2, Ht1, <- app_assoc|].
  split; [done|].
  intros b Hb. by rewrite Hf3, Hf2, Hh1.
Qed.

(** X9.  [PopConn] on a pool whose oldest ready session cannot be
    sanitized: it returns the error of [tryReuse] and no session; the
    session is closed and leaves the ready collection for the end of the
    reserved one, so a session that failed sanitation is never handed
    out. *)
Theorem PopConn_sanitation_failure_discards w ci cc rs rd a c e w2 :
  pool_at w ci cc rs (Some a :: rd) ->
  heap w !! a = Some c ->
  length rs < Z.to_nat (maxConnNum (pool w)) ->
  tryReuse (Some a) w = Ret (Some e) w2 ->
  exists w',
    PopConn w = Ret (None, Some e) w' /\
    pool_at w' ci cc (rs ++ [Some a]) rd /\
    trace w' = trace w2 ++ [CallClose a] /\
    (exists c', heap w' !! a = Some c' /\ connected c' = false) /\
    (forall b, b <> a -> heap w' !! b = heap w2 !! b).
Proof.
  intros Hat Hc Hlt E. rewrite (PopConn_at_cache _ _ _ _ _ _ Hat).
  pose proof (pool_at_set_cache _ _ _ _ _ rd Hat) as Hat1.
  unfold PopConn_reuse. rewrite (bind_Ret _ _ _ _ _ (eq_trans (tryReuse_chans _ _ _)
                                                       (f_equal _ E))).
  destruct (tryReuse_run a c w Hc) as (r & w2' & t & E' & R & F).
  rewrite E in E'. injection E' as <- <-.
  destruct (session_run_lookup a _ w w2 R (mk_is_Some _ _ Hc)) as [c2 Hc2].
  destruct R as (Hch2 & Hp2 & Hl2 & Ht2 & Hf2).
  match goal with |- context [bind _ _ ?x] => set (w3 := x) in * end.
  assert (heap w3 = heap w2) as Hh3 by done.
  assert (pool w3 = pool w2) as Hp3 by done.
  assert (trace w3 = trace w2) as Ht3 by done.
  assert (pool_at w3 ci cc rs rd) as Hat3.
  { eapply pool_at_ext; [| |exact Hat1]; [done|]. by rewrite Hp3, Hp2. }
  clearbody w3.
  destruct (closeConn_run w3 ci cc rs rd a c2 Hat3) as (w4 & E4 & Hat4 & R4 & H4).
  { by rewrite Hh3. }
  { by rewrite Hp3, Hp2. }
  rewrite (bind_Ret _ _ _ _ _ E4).
  destruct R4 as (Hp4 & Hl4 & Ht4 & Hf4).
  exists w4. split; [done|]. split; [done|].
  split; [by rewrite Ht4, Ht3|].
  split; [by eexists|].
  intros b Hb. by rewrite Hf4, Hh3.
Qed.

(** X10.  Every session that [PopConn] hands out from a pool in use is
    clean (no transaction, autocommit enabled, the default charset) and is
    not one that another caller still holds. *)
Theorem PopConn_hands_out_clean_session w B a w' :
  reachable w B ->
  PopConn w = Ret (Some a, None) w' ->
  (a ∉ B) /\ exists c, heap w' !! a = Some c /\ clean c.
Proof.
  intros HR E. destruct (reachable_pool_inv _ _ HR) as (ci & cc & rs & rd & Hat & Hnd & Hv & Hlen & _).
  assert (PopConn_result w ci cc rs rd (PopConn w)) as Hres.
  { apply PopConn_spec; [done| |lia].
    rewrite !Forall_app in Hv. rewrite Forall_app. tauto. }
  rewrite E in Hres.
  assert (Some a ∈ rd ++ rs -> a ∉ B) as Hout.
  { intros Hin HB. rewrite app_assoc in Hnd.
    apply list.NoDup_app in Hnd as (_ & Hd & _).
    apply (Hd _ Hin). apply list_elem_of_fmap. by exists a. }
  inversion Hres as [a0 rd' t w1 w0 Hrd Hat' Heff Hf Hh Ht Htry| | a0 rs' w0 Hrd Hrs Hat' Heff Hfresh | |];
    subst.
  - split; [apply Hout; apply elem_of_app; left; apply list_elem_of_here|].
    assert (is_Some (heap w1 !! a)) as [c Hc].
    { rewrite Hh. apply lookup_lt_is_Some.
      apply Forall_cons_1 in Hv as [(b & [= <-] & Hb) _]. done. }
    destruct (tryReuse_cases a c w1 None w' Hc Htry) as (_ & _ & _ & Hh').
    eexists. split.
    + rewrite Hh'. apply list_lookup_insert_eq. by eapply lookup_lt_Some.
    + done.
  - split; [apply Hout; apply elem_of_app; right; apply list_elem_of_here|].
    by eexists.
Qed.

(** X11.  A caller that releases a session it holds, without error, to a
    pool in use: the session joins the end of the ready collection as it
    is, no call is made on it, and the [default] branch of the [select] is
    not taken, because the ready collection of such a pool has room for
    every session that is handed out. *)
Theorem release_parks_the_session w B1 a B2 :
  reachable w (B1 ++ a :: B2) ->
  exists w',
    PushConn (Some a) None w = Ret tt w' /\
    ready w' = ready w ++ [Some a] /\ reserved w' = reserved w /\
    heap w' = heap w /\ trace w' = trace w /\
    reachable w' (B1 ++ B2).
Proof.
  intros HR. destruct (reachable_pool_inv _ _ HR) as (ci & cc & rs & rd & Hat & Hnd & Hv & Hlen & _).
  destruct (PushConn_ok_spec w ci cc rs rd a Hat) as (w' & E & Hat' & Hh & Hp & Ht).
  { revert Hlen. list_len. }
  exists w'. split; [done|].
  rewrite (pool_at_ready _ _ _ _ _ Hat), (pool_at_ready _ _ _ _ _ Hat').
  rewrite (pool_at_reserved _ _ _ _ _ Hat), (pool_at_reserved _ _ _ _ _ Hat').
  repeat (split; [done|]).
  eapply reach_step; [exact HR|]. by eapply step_release.
Qed.

(** X12.  A caller that releases a session it holds with an error: the
    session is closed (one call, the close) and queued at the end of the
    reserved collection; the ready collection is unchanged. *)
Theorem release_with_error_discards w B1 a B2 e :
  reachable w (B1 ++ a :: B2) ->
  exists w',
    PushConn (Some a) (Some e) w = Ret tt w' /\
    ready w' = ready w /\ reserved w' = reserved w ++ [Some a] /\
    trace w' = trace w ++ [CallClose a] /\
    (exists c', heap w' !! a = Some c' /\ connected c' = false) /\
    reachable w' (B1 ++ B2).
Proof.
  intros HR. destruct (reachable_pool_inv _ _ HR) as (ci & cc & rs & rd & Hat & Hnd & Hv & Hlen & _).
  assert (is_Some (heap w !! a)) as [c Hc].
  { apply lookup_lt_is_Some. rewrite !Forall_app in Hv.
    destruct Hv as (_ & _ & Hv). rewrite fmap_app in Hv. cbn in Hv.
    apply Forall_app in Hv as [_ Hv].
    apply Forall_cons_1 in Hv as [(b & [= <-] & Hb) _]. done. }
  assert (PushConn (Some a) (Some e) w = (run closeConn (Some a) in ret tt) w) as EP.
  { unfold PushConn.
    rewrite (bind_Ret getCacheConns _ w (cacheConns (pool w)) w eq_refl).
    pose proof Hat as (_ & Hcc & _). by rewrite Hcc. }
  destruct (closeConn_run w ci cc rs rd a c Hat Hc) as (w' & E & Hat' & R & H).
  { revert Hlen. list_len. }
  rewrite (bind_Ret _ _ _ _ _ E) in EP.
  exists w'. split; [done|].
  rewrite (pool_at_ready _ _ _ _ _ Hat), (pool_at_ready _ _ _ _ _ Hat').
  rewrite (pool_at_reserved _ _ _ _ _ Hat), (pool_at_reserved _ _ _ _ _ Hat').
  destruct R as (_ & _ & Ht & _).
  repeat (split; [done|]). split; [by eexists|].
  eapply reach_step; [exact HR|]. by eapply step_release.
Qed.

(** X13.  [PushConn] without error on a pool whose ready collection is
    full takes the [default] branch of the [select]: the session is not
    queued as ready; it is closed and queued as reserved. *)
Theorem PushConn_on_full_ready_discards w ci cc rs rd a c :
  pool_at w ci cc rs rd ->
  length rd = Z.to_nat (maxConnNum (pool w)) ->
  length rs < Z.to_nat (maxConnNum (pool w)) ->
  heap w !! a = Some c ->
  exists w',
    PushConn (Some a) None w = Ret tt w' /\
    pool_at w' ci cc (rs ++ [Some a]) rd /\
    trace w' = trace w ++ [CallClose a] /\
    heap w' !! a = Some (mkConn false (inTransaction c) (autoCommit c)
                                (charset c) (pkgErr c)).
Proof.
  intros Hat Hfull Hlt Hc. unfold PushConn.
  rewrite (bind_Ret getCacheConns _ w (cacheConns (pool w)) w eq_refl).
  pose proof Hat as (_ & Hcc & _). rewrite Hcc.
  pose proof (try_send_cache _ _ _ _ _ (Some a) Hat) as E.
  rewrite decide_False in E by lia.
  rewrite (bind_Ret _ _ _ _ _ E).
  destruct (closeConn_run w ci cc rs rd a c Hat Hc Hlt) as (w' & E' & Hat' & R & H).
  rewrite (bind_Ret _ _ _ _ _ E').
  destruct R as (_ & _ & Ht & _). by exists w'.
Qed.

(** X14.  Release, then acquire: when the ready collection is empty, a
    session released without error is the one the next [PopConn] deals
    with; [PopConn] returns, either with that very session or with an
    error, and in that case the session has been moved to the reserved
    collection. *)
Theorem released_session_is_the_next_handed_out w B1 a B2 :
  reachable w (B1 ++ a :: B2) ->
  ready w = [] ->
  exists w1 r w2,
    PushConn (Some a) None w = Ret tt w1 /\
    PopConn w1 = Ret r w2 /\
    ready w2 = [] /\
    (r = (Some a, None) /\ reserved w2 = reserved w \/
     exists e, r = (None, Some e) /\ reserved w2 = reserved w ++ [Some a]).
Proof.
  intros HR Hempty.
  destruct (reachable_pool_inv _ _ HR) as (ci & cc & rs & rd & Hat & Hnd & Hv & Hlen & _).
  rewrite (pool_at_ready _ _ _ _ _ Hat) in Hempty. subst rd.
  rewrite (pool_at_reserved _ _ _ _ _ Hat).
  destruct (PushConn_ok_spec w ci cc rs [] a Hat) as (w1 & E & Hat1 & Hh & Hp & Ht).
  { revert Hlen. list_len. }
  cbn [app] in Hat1.
  assert (reachable w1 (B1 ++ B2)) as HR1.
  { eapply reach_step; [exact HR|]. by eapply step_release. }
  destruct (reachable_pool_inv _ _ HR1) as (ci' & cc' & rs' & rd' & Hat1' & Hnd1 & Hv1 & Hlen1 & _).
  destruct (pool_at_fun _ _ _ _ _ _ _ _ _ Hat1 Hat1') as (-> & -> & -> & ->).
  assert (PopConn_result w1 ci cc rs [Some a] (PopConn w1)) as Hres.
  { apply PopConn_spec; [done| |revert Hlen1; list_len].
    rewrite !Forall_app in Hv1. rewrite Forall_app. tauto. }
  exists w1. remember (PopConn w1) as o eqn:Eo.
  destruct Hres as [a0 rd' t w0 w2 Hrd Hat2 _ _ _ _ _|a0 rd' t e w2 Hrd Hat2 _ _
                   |a0 rs' w2 Hrd _ _ _ _|a0 rs' e w2 Hrd _ _ _|Hrd _]; try done.
  - injection Hrd as <- <-. exists (Some a, None), w2. split; [done|]. split; [done|].
    rewrite (pool_at_ready _ _ _ _ _ Hat2), (pool_at_reserved _ _ _ _ _ Hat2).
    split; [done|]. by left.
  - injection Hrd as <- <-. exists (None, Some e), w2. split; [done|]. split; [done|].
    rewrite (pool_at_ready _ _ _ _ _ Hat2), (pool_at_reserved _ _ _ _ _ Hat2).
    split; [done|]. right. by exists e.
Qed.


(** ** The health check *)

(** X15.  [Ping] on a pool that has its health-check session makes one
    call, the ping, on that session and returns the backend's answer as it
    is; it touches no other session, no channel and no field of the
    pool. *)
Theorem Ping_uses_the_check_session w k c :
  checkConn (pool w) = Some k ->
  heap w !! k = Some c ->
  exists w',
    Ping w = Ret (reply env (trace w) (CallPing k)) w' /\
    trace w' = trace w ++ [CallPing k] /\
    heap w' = heap w /\ chans w' = chans w /\ pool w' = pool w.
Proof.
  intros Hk Hc. unfold Ping. rewrite (bind_Ret get _ w w w eq_refl). rewrite Hk.
  unfold Conn_Ping, backend_call. rewrite Hc.
  destruct (reply env (trace w) (CallPing k)); eexists; (split; [reflexivity|]); cbn;
    [done|].
  split; [done|]. split; [|done]. by apply list_insert_id.
Qed.

(** X16.  [Ping] on a pool without a health-check session first tries to
    make one: if the connection fails, the error of the connection is
    returned, no ping is sent and the pool is still without a health-check
    session; if it succeeds, the new session is kept in [checkConn] and
    pinged.  The collections are not used. *)
Theorem Ping_without_check_session w :
  checkConn (pool w) = None ->
  let k := length (heap w) in
  let connect := CallConnect k (addr (pool w)) (user (pool w))
                             (password (pool w)) (db (pool w)) in
  exists w',
    chans w' = chans w /\
    idleConns (pool w') = idleConns (pool w) /\
    cacheConns (pool w') = cacheConns (pool w) /\
    match reply env (trace w) connect with
    | Some e =>
        Ping w = Ret (Some e) w' /\
        checkConn (pool w') = None /\
        trace w' = trace w ++ [connect]
    | None =>
        Ping w = Ret (reply env (trace w ++ [connect]) (CallPing k)) w' /\
        checkConn (pool w') = Some k /\
        trace w' = trace w ++ [connect; CallPing k] /\
        heap w' !! k = Some (mkConn true false true DEFAULT_CHARSET None)
    end.
Proof.
  intros Hk k connect. unfold Ping. rewrite (bind_Ret get _ w w w eq_refl). rewrite Hk.
  destruct (newConn_run w) as (w1 & E & Hch & Hp & Hl & Ht & Hf & Hnew).
  rewrite (bind_Ret _ _ _ _ _ E).
  rewrite (bind_Ret (modify _) _ w1 tt _ eq_refl).
  fold k in E, Ht, Hnew |- *. fold connect in E, Ht, Hnew |- *.
  destruct (reply env (trace w) connect) as [e|] eqn:Hr; cbn [fst snd].
  - eexists. split; [|split; [|split; [|split; [reflexivity|]]]]; cbn; by rewrite ?Hp.
  - specialize (Hnew eq_refl).
    match goal with |- context [Conn_Ping _ ?x] => set (w2 := x) end.
    assert (heap w2 = heap w1) as Hh2 by done.
    assert (trace w2 = trace w1) as Ht2 by done.
    assert (chans w2 = chans w1) as Hch2 by done.
    assert (pool w2 = with_checkConn (Some k) (pool w1)) as Hp2 by done.
    clearbody w2.
    assert (heap w2 !! k = Some (mkConn true false true DEFAULT_CHARSET None)) as Hc2
      by (by rewrite Hh2).
    destruct (backend_call_run k _ CallPing (fun c => c) w2 Hc2)
      as (w3 & E3 & (Hch3 & Hp3 & _ & Ht3 & _) & H3).
    rewrite Ht2, Ht in E3, H3.
    exists w3. rewrite Hch3, Hch2, Hch, Hp3, Hp2, Hp, Ht3, Ht2, Ht, <- app_assoc.
    repeat (split; [done|]). by destruct (reply env (trace w ++ [connect]) (CallPing k)).
Qed.


(** ** More on [Open] *)

(** [Open] up to its loop, when the health-check session connects. *)
Lemma Open_start a u p d n w0 :
  reply env (trace w0) (CallConnect (length (heap w0)) a u p d) = None ->
  exists w3,
    Open a u p d n w0 = Open_fill (counter_values (clamp_max n)) w3 /\
    pool w3 = mkDB a u p d Unknown (clamp_max n) (clamp_init n)
                   (Some (length (chans w0))) (Some (S (length (chans w0))))
                   (Some (length (heap w0))) /\
    pool_at w3 (length (chans w0)) (S (length (chans w0))) [] [] /\
    length (heap w3) = S (length (heap w0)) /\
    heap w3 !! length (heap w0) = Some (mkConn true false true DEFAULT_CHARSET None) /\
    (forall b, b < length (heap w0) -> heap w3 !! b = heap w0 !! b) /\
    trace w3 = trace w0 ++ [CallConnect (length (heap w0)) a u p d].
Proof.
  intros Hr. unfold Open. fold (clamp_max n). fold (clamp_init n).
  rewrite (bind_Ret (modify _) _ w0 tt _ eq_refl).
  match goal with |- context [bind newConn _ ?x] => set (w1 := x) end.
  destruct (newConn_run w1) as (w2 & E & Hch & Hp & Hl & Ht & Hf & Hnew).
  change (trace w1) with (trace w0) in *. change (heap w1) with (heap w0) in *.
  change (chans w1) with (chans w0) in *.
  assert (pool w1 = mkDB a u p d 0 (clamp_max n) (clamp_init n) None None None) as Hp1
    by done.
  clearbody w1. rewrite Hp1 in *.
  cbn [addr user password db] in E, Ht, Hnew.
  rewrite Hr in E. specialize (Hnew Hr).
  rewrite (bind_Ret _ _ _ _ _ E).
  rewrite (bind_Ret (modify _) _ w2 tt _ eq_refl). cbn [snd fst].
  unfold make_chan, modify, bind at 1 2 3 4 5. cbn [pool set_pool set_chans chans].
  rewrite Hp. cbn [with_checkConn with_chans with_state maxConnNum idleConns cacheConns
                   addr user password db state InitConnNum checkConn].
  rewrite length_app, Hch. cbn [length].
  replace (length (chans w0) + 1) with (S (length (chans w0))) by lia.
  eexists. split; [reflexivity|]. cbn [pool heap trace].
  split; [done|]. split; [|done].
  unfold pool_at. cbn. rewrite ?Hch.
  split; [done|]. split; [done|]. split; [lia|]. split.
  - rewrite lookup_app_l by (rewrite length_app; cbn; lia).
    rewrite lookup_app_r by lia. by rewrite Nat.sub_diag.
  - rewrite lookup_app_r by (rewrite length_app; cbn; lia).
    rewrite length_app. cbn.
    by replace (S (length (chans w0)) - (length (chans w0) + 1)) with 0 by lia.
Qed.

(** One round of the loop of [Open] that connects a session for the ready
    collection. *)
Lemma Open_fill_prewarm i rest w ci cc rs rd :
  pool_at w ci cc rs rd ->
  (i < InitConnNum (pool w))%Z ->
  length rd < Z.to_nat (maxConnNum (pool w)) ->
  exists w1,
    pool w1 = pool w /\
    length (heap w1) = S (length (heap w)) /\
    trace w1 = trace w ++ [CallConnect (length (heap w)) (addr (pool w)) (user (pool w))
                                       (password (pool w)) (db (pool w))] /\
    (forall b, b < length (heap w) -> heap w1 !! b = heap w !! b) /\
    match reply env (trace w)
                (CallConnect (length (heap w)) (addr (pool w)) (user (pool w))
                             (password (pool w)) (db (pool w))) with
    | None =>
        Open_fill (i :: rest) w = Open_fill rest w1 /\
        pool_at w1 ci cc rs (rd ++ [Some (length (heap w))]) /\
        heap w1 !! length (heap w) = Some (mkConn true false true DEFAULT_CHARSET None)
    | Some _ =>
        Open_fill (i :: rest) w = (run Close in ret (Some ErrDBPoolInit)) w1 /\
        pool_at w1 ci cc rs rd
    end.
Proof.
  intros Hat Hlt Hroom. cbn [Open_fill].
  rewrite (bind_Ret get _ w w w eq_refl). rewrite decide_True by done.
  destruct (newConn_run w) as (w1 & E1 & Hch1 & Hp1 & Hl1 & Ht1 & Hfr1 & Hnew1).
  rewrite (bind_Ret _ _ _ _ _ E1).
  assert (pool_at w1 ci cc rs rd) as Hat1 by (by eapply pool_at_ext).
  destruct (reply env (trace w) _) as [e|] eqn:Hr; cbn [snd fst].
  - exists w1. by repeat (split; [done|]).
  - rewrite (bind_Ret get _ w1 w1 w1 eq_refl).
    pose proof Hat as (_ & Hc & _). rewrite Hp1, Hc.
    rewrite (bind_Ret _ _ _ _ _
               (send_cache w1 ci cc rs rd (Some (length (heap w))) Hat1
                  ltac:(rewrite Hp1; lia))).
    eexists. split; [|split; [|split; [|split; [|split; [reflexivity|]]]]]; cbn; try done.
    split; [|by apply Hnew1].
    eapply pool_at_set_cache. exact Hat1.
Qed.

(** One round of the loop of [Open] that allocates a reserved slot: no
    call is made. *)
Lemma Open_fill_reserve i rest w ci cc rs rd :
  pool_at w ci cc rs rd ->
  ~ (i < InitConnNum (pool w))%Z ->
  length rs < Z.to_nat (maxConnNum (pool w)) ->
  exists w1,
    Open_fill (i :: rest) w = Open_fill rest w1 /\
    pool_at w1 ci cc (rs ++ [Some (length (heap w))]) rd /\
    pool w1 = pool w /\
    heap w1 = heap w ++ [zeroConn] /\
    trace w1 = trace w.
Proof.
  intros Hat Hge Hroom. cbn [Open_fill].
  rewrite (bind_Ret get _ w w w eq_refl). rewrite decide_False by done.
  rewrite (bind_Ret new_Conn _ w (Some (length (heap w)))
             (set_heap (heap w ++ [zeroConn]) w) eq_refl).
  set (w1 := set_heap (heap w ++ [zeroConn]) w) in *.
  assert (chans w1 = chans w) as Hch1 by done.
  assert (pool w1 = pool w) as Hp1 by done.
  assert (heap w1 = heap w ++ [zeroConn]) as Hh1 by done.
  assert (trace w1 = trace w) as Ht1 by done.
  clearbody w1.
  rewrite (bind_Ret get _ w1 w1 w1 eq_refl).
  pose proof Hat as (Hi & _). rewrite Hp1, Hi.
  assert (pool_at w1 ci cc rs rd) as Hat1 by (by eapply pool_at_ext).
  rewrite (bind_Ret _ _ _ _ _
             (send_idle w1 ci cc rs rd (Some (length (heap w))) Hat1
                ltac:(rewrite Hp1; lia))).
  eexists. split; [reflexivity|]. cbn. split; [|done].
  eapply pool_at_set_idle. exact Hat1.
Qed.




(** The loop of [Open] when it ends without error: every slot it queues is
    a [Conn] it has just allocated, one per round, and the calls it makes
    are the connections of the sessions it queues as ready. *)
Lemma Open_fill_fresh n : forall k w ci cc rs rd w' m,
  pool_at w ci cc rs rd ->
  length rd + length rs = k ->
  k + n <= Z.to_nat (maxConnNum (pool w)) ->
  m <= length (heap w) ->
  Forall (fun p => exists b, p = Some b /\ m <= b) (rd ++ rs) ->
  Open_fill (map Z.of_nat (seq k n)) w = Ret None w' ->
  exists rs' rd' t,
    pool_at w' ci cc rs' rd' /\
    Forall (fun p => exists b, p = Some b /\ m <= b) (rd' ++ rs') /\
    pool w' = pool w /\
    length (heap w') = length (heap w) + n /\
    (forall b, b < length (heap w) -> heap w' !! b = heap w !! b) /\
    trace w' = trace w ++ t /\
    length t + length rd = length rd' /\
    Forall (fun c => exists l, c = CallConnect l (addr (pool w)) (user (pool w))
                                               (password (pool w)) (db (pool w))) t.
Proof.
  induction n as [|n IH]; intros k w ci cc rs rd w' m Hat Hlen Hle Hm Hab Hrun.
  - cbn in Hrun. injection Hrun as <-. exists rs, rd, [].
    rewrite app_nil_r, Nat.add_0_r. by repeat (split; [done|]).
  - cbn [seq map] in Hrun.
    destruct (decide (Z.of_nat k < InitConnNum (pool w))%Z) as [Hlt|Hge].
    + destruct (Open_fill_prewarm (Z.of_nat k) (map Z.of_nat (seq (S k) n)) w ci cc rs rd Hat Hlt)
        as (w1 & Hp1 & Hl1 & Ht1 & Hf1 & H1); [lia|].
      destruct (reply env (trace w) _) as [e|].
      { destruct H1 as (E & _). rewrite E in Hrun.
        apply bind_inv in Hrun as (? & ? & _ & [=]). }
      destruct H1 as (E & Hat1 & Hnew). rewrite E in Hrun.
      eapply (IH (S k) w1 ci cc rs _ w' m Hat1) in Hrun
        as (rs' & rd' & t & Hat' & Hab' & Hp' & Hl' & Hf' & Ht' & Hlt' & Hcs).
      * exists rs', rd', (CallConnect (length (heap w)) (addr (pool w)) (user (pool w))
                                      (password (pool w)) (db (pool w)) :: t).
        split; [done|]. split; [done|]. split; [by rewrite Hp'|].
        split; [lia|].
        split; [intros b Hb; rewrite Hf' by lia; by apply Hf1|].
        split; [by rewrite Ht', Ht1, <- app_assoc|].
        split; [revert Hlt'; list_len|].
        constructor; [by eexists|]. by rewrite <- Hp1.
      * list_len.
      * rewrite Hp1. lia.
      * lia.
      * rewrite <- app_assoc. cbn.
        apply Forall_app. apply Forall_app in Hab as [Hab1 Hab2].
        split; [done|]. constructor; [|done]. by eexists.
    + destruct (Open_fill_reserve (Z.of_nat k) (map Z.of_nat (seq (S k) n)) w ci cc rs rd Hat Hge)
        as (w1 & E & Hat1 & Hp1 & Hh1 & Ht1); [lia|].
      rewrite E in Hrun.
      assert (length (heap w1) = S (length (heap w))) as Hl1
        by (rewrite Hh1, length_app; cbn; lia).
      eapply (IH (S k) w1 ci cc _ rd w' m Hat1) in Hrun
        as (rs' & rd' & t & Hat' & Hab' & Hp' & Hl' & Hf' & Ht' & Hlt' & Hcs).
      * exists rs', rd', t.
        split; [done|]. split; [done|]. split; [by rewrite Hp'|].
        split; [lia|].
        split; [intros b Hb; rewrite Hf' by lia; rewrite Hh1; by apply lookup_app_l|].
        split; [by rewrite Ht', Ht1|].
        split; [done|]. by rewrite <- Hp1.
      * list_len.
      * rewrite Hp1. lia.
      * lia.
      * rewrite app_assoc. apply Forall_app. split; [done|].
        constructor; [|done]. by eexists.
Qed.

(** An [Open] that succeeds has connected its health-check session. *)
Lemma Open_ok_check a u p d n w0 w :
  Open a u p d n w0 = Ret None w ->
  reply env (trace w0) (CallConnect (length (heap w0)) a u p d) = None.
Proof.
  intros Hrun. destruct (reply env (trace w0) _) as [e|] eqn:Hr; [exfalso|done].
  revert Hrun. unfold Open.
  rewrite (bind_Ret (modify _) _ w0 tt _ eq_refl).
  match goal with |- context [bind newConn _ ?x] => set (w1 := x) end.
  destruct (newConn_run w1) as (w2 & E & _).
  change (trace w1) with (trace w0) in *. change (heap w1) with (heap w0) in *.
  cbn [w1 pool set_pool addr user password db] in E.
  rewrite Hr in E. rewrite (bind_Ret _ _ _ _ _ E).
  rewrite (bind_Ret (modify _) _ w2 tt _ eq_refl). cbn [snd fst].
  by intros (? & ? & _ & [=])%bind_inv.
Qed.

(** What a successful [Open] has built, from the state it started in. *)
Lemma Open_built a u p d n w0 w :
  Open a u p d n w0 = Ret None w ->
  exists ci cc rs rd t,
    pool_at w ci cc rs rd /\
    Forall (fun p => exists b, p = Some b /\ S (length (heap w0)) <= b) (rd ++ rs) /\
    pool w = mkDB a u p d Unknown (clamp_max n) (clamp_init n) (Some ci) (Some cc)
                  (Some (length (heap w0))) /\
    length (heap w) = S (length (heap w0)) + Z.to_nat (clamp_max n) /\
    (forall b, b < length (heap w0) -> heap w !! b = heap w0 !! b) /\
    heap w !! length (heap w0) = Some (mkConn true false true DEFAULT_CHARSET None) /\
    trace w = trace w0 ++ CallConnect (length (heap w0)) a u p d :: t /\
    length t = length rd /\
    Forall (fun c => exists l, c = CallConnect l a u p d) t.
Proof.
  intros Hrun. pose proof (Open_ok_check _ _ _ _ _ _ _ Hrun) as Hr.
  destruct (Open_start a u p d n w0 Hr) as (w3 & E & Hp3 & Hat3 & Hl3 & Hc3 & Hf3 & Ht3).
  rewrite E in Hrun. unfold counter_values in Hrun.
  eapply (Open_fill_fresh _ 0 w3 _ _ [] [] w (S (length (heap w0))) Hat3) in Hrun
    as (rs & rd & t & Hat & Hab & Hp & Hl & Hf & Ht & Hlt & Hcs);
    [|done|rewrite Hp3; cbn; lia|lia|constructor].
  exists (length (chans w0)), (S (length (chans w0))), rs, rd, t.
  split; [done|]. split; [done|]. split; [by rewrite Hp, Hp3|].
  split; [rewrite Hl, Hl3; lia|].
  split; [intros b Hb; rewrite Hf by lia; by apply Hf3|].
  split; [by rewrite Hf by lia|].
  split; [by rewrite Ht, Ht3, <- app_assoc|].
  split; [revert Hlt; list_len|].
  by rewrite Hp3 in Hcs.
Qed.

(** X18.  A successful [Open] connects lazily: it allocates one [Conn] for
    the health check and one for each slot of the capacity, but makes only
    [InitConnNum + 1] calls, all of them connections to the address and
    with the credentials it was given; the reserved slots cost no call.
    It records its arguments, leaves the state at [Unknown], which [State]
    reports as the string of the source, and touches no [Conn] that was
    there before. *)
Theorem Open_connects_lazily a u p d n w0 w :
  Open a u p d n w0 = Ret None w ->
  Addr w = a /\ State w = "unknow" /\
  checkConn (pool w) = Some (length (heap w0)) /\
  length (heap w) = length (heap w0) + 1 + Z.to_nat (maxConnNum (pool w)) /\
  (forall b, b < length (heap w0) -> heap w !! b = heap w0 !! b) /\
  exists t,
    trace w = trace w0 ++ t /\
    length t = 1 + Z.to_nat (InitConnNum (pool w)) /\
    Forall (fun c => exists l, c = CallConnect l a u p d) t.
Proof.
  intros Hrun.
  destruct (Open_built _ _ _ _ _ _ _ Hrun)
    as (ci & cc & rs & rd & t & Hat & _ & Hp & Hl & Hf & _ & Ht & Hlt & Hcs).
  destruct (Open_spec _ _ _ _ _ _ _ Hrun) as (Hmax & Hinit & ci' & cc' & rs' & rd' & Hfill).
  destruct Hfill as (Hat' & Hlrd & _).
  destruct (pool_at_fun _ _ _ _ _ _ _ _ _ Hat Hat') as (_ & _ & -> & ->).
  pose proof (clamp_bounds n) as [Hb1 Hb2].
  unfold Addr, State. rewrite Hp. cbn [addr state checkConn maxConnNum InitConnNum].
  split; [done|]. split; [done|]. split; [done|]. split; [lia|]. split; [done|].
  exists (CallConnect (length (heap w0)) a u p d :: t).
  split; [done|]. split.
  - cbn [length]. rewrite Hlt, Hlrd, Hmax, Hinit. lia.
  - constructor; [by eexists|done].
Qed.

(** A step of a caller changes no field of the pool. *)
Lemma step_pool w B w' B' :
  pool_inv w B -> step (w, B) (w', B') ->
  is_Some (checkConn (pool w)) ->
  pool w' = pool w.
Proof.
  intros Hinv Hstep [k Hk].
  destruct Hinv as (ci & cc & rs & rd & Hat & Hnd & Hv & Hlen & Hpos).
  inversion Hstep as
    [w1 w1' a B0 Hop | w1 w1' e B0 Hop | w1 w1' a err B1 B2 Hop
    | w1 w1' a B1 B2 Hop | w1 a c B0 Hin | w1 w1' r B0 Hop]; subst.
  - assert (PopConn_result w ci cc rs rd (PopConn w)) as Hres.
    { apply PopConn_spec; [done| |lia].
      rewrite app_assoc in Hv. by apply Forall_app in Hv as [Hv _]. }
    rewrite Hop in Hres.
    by inversion Hres as [a' rd' t w0 w2 -> Hat' (Hp & Hl & _) _ _ _ _
                         | | a' rs' w2 -> -> Hat' (Hp & Hl & _) _ | |].
  - assert (PopConn_result w ci cc rs rd (PopConn w)) as Hres.
    { apply PopConn_spec; [done| |lia].
      rewrite app_assoc in Hv. by apply Forall_app in Hv as [Hv _]. }
    rewrite Hop in Hres.
    by inversion Hres as [| a' rd' t e' w2 -> Hat' (Hp & Hl & _) _
                          | | a' rs' e' w2 -> -> Hat' (Hp & Hl & _) |].
  - assert (valid_ptr w (Some a)) as Hva.
    { rewrite Forall_forall in Hv. apply Hv.
      rewrite map_app, !in_app_iff. cbn. auto. }
    destruct (valid_ptr_lookup _ _ Hva) as (a0 & c & [= <-] & Hc).
    assert (length B1 + S (length B2) = length (B1 ++ a :: B2)) as HlenB by list_len.
    destruct err as [e|].
    + destruct (PushConn_err_spec w ci cc rs rd a c e Hat Hc ltac:(lia))
        as (w2 & E & Hat' & (Hp & Hl & _)).
      rewrite E in Hop. by injection Hop as <-.
    + destruct (PushConn_ok_spec w ci cc rs rd a Hat ltac:(lia))
        as (w2 & E & Hat' & Hh & Hp & _).
      rewrite E in Hop. by injection Hop as <-.
  - assert (valid_ptr w (Some a)) as Hva.
    { rewrite Forall_forall in Hv. apply Hv.
      rewrite map_app, !in_app_iff. cbn. auto. }
    destruct (valid_ptr_lookup _ _ Hva) as (a0 & c & [= <-] & Hc).
    assert (length B1 + S (length B2) = length (B1 ++ a :: B2)) as HlenB by list_len.
    destruct (closeConn_run w ci cc rs rd a c Hat Hc ltac:(lia))
      as (w2 & E & Hat' & (Hp & Hl & _) & _).
    rewrite E in Hop. by injection Hop as <-.
  - done.
  - revert Hop. unfold Ping. rewrite (bind_Ret get _ w w w eq_refl). rewrite Hk.
    unfold Conn_Ping, backend_call. destruct (heap w !! k); [|done].
    destruct (reply env (trace w) (CallPing k)); by intros [= _ <-].
Qed.

(** The health-check session of a pool in use: it is allocated, it is in
    neither collection and it is not handed out; the state of the pool is
    [Unknown]. *)
Lemma reachable_check w B :
  reachable w B ->
  exists k,
    checkConn (pool w) = Some k /\ k < length (heap w) /\
    (Some k ∉ ready w ++ reserved w ++ map Some B) /\
    state (pool w) = Unknown.
Proof.
  induction 1 as [a u p d n w0 w Hrun|w B w' B' HR IH Hstep].
  - destruct (Open_built _ _ _ _ _ _ _ Hrun)
      as (ci & cc & rs & rd & t & Hat & Hab & Hp & Hl & _).
    exists (length (heap w0)). rewrite Hp. cbn [checkConn state].
    split; [done|]. split; [lia|]. split; [|done].
    rewrite (pool_at_ready _ _ _ _ _ Hat), (pool_at_reserved _ _ _ _ _ Hat).
    cbn. rewrite app_nil_r. intros Hin.
    rewrite list.Forall_forall in Hab. destruct (Hab _ Hin) as (b & [= <-] & Hb). lia.
  - destruct IH as (k & Hk & Hlt & Hout & Hst).
    pose proof (reachable_pool_inv _ _ HR) as Hinv.
    pose proof Hinv as (ci & cc & rs & rd & Hat & _).
    destruct (step_effect _ _ _ _ _ _ _ _ Hinv Hstep Hat)
      as (rs' & rd' & Hat' & Hperm & Hl & _).
    pose proof (step_pool _ _ _ _ Hinv Hstep (mk_is_Some _ _ Hk)) as Hp.
    exists k. rewrite Hp. split; [done|]. split; [lia|]. split; [|done].
    rewrite (pool_at_ready _ _ _ _ _ Hat), (pool_at_reserved _ _ _ _ _ Hat) in Hout.
    rewrite (pool_at_ready _ _ _ _ _ Hat'), (pool_at_reserved _ _ _ _ _ Hat').
    by rewrite Hperm.
Qed.

(** X19.  The health-check session is dedicated: in a pool in use it is an
    allocated [Conn] that is in neither collection and that no caller
    holds, so no caller ever gets it from [PopConn]. *)
Theorem check_session_is_never_pooled w B :
  reachable w B ->
  exists k,
    checkConn (pool w) = Some k /\ k < length (heap w) /\
    (Some k ∉ ready w) /\ (Some k ∉ reserved w) /\ (k ∉ B) /\
    (forall a w', PopConn w = Ret (Some a, None) w' -> a <> k).
Proof.
  intros HR. destruct (reachable_check _ _ HR) as (k & Hk & Hlt & Hout & _).
  exists k. split; [done|]. split; [done|].
  rewrite !elem_of_app in Hout.
  split; [tauto|]. split; [tauto|].
  split; [intros Hin; apply Hout; right; right; apply list_elem_of_fmap; by exists k|].
  intros a w' Hpop ->.
  assert (reachable w' (k :: B)) as HR' by (eapply reach_step; [exact HR|by constructor]).
  destruct (reachable_check _ _ HR') as (k' & Hk' & _ & Hout' & _).
  pose proof (reachable_pool_inv _ _ HR) as Hinv.
  rewrite (step_pool _ _ _ _ Hinv (step_acquire _ _ _ _ Hpop) (mk_is_Some _ _ Hk)) in Hk'.
  rewrite Hk in Hk'. injection Hk' as <-.
  apply Hout'. rewrite !elem_of_app. right. right. cbn. apply list_elem_of_here.
Qed.

(** X20.  The operations of a caller (acquire, release, discard, health
    check) change no field of a pool in use: address, credentials,
    capacity, channels, health-check session and state stay as [Open] set
    them; in particular the state stays [Unknown] and [State] keeps
    answering with the string the source has for it. *)
Theorem pool_fields_are_fixed w B :
  reachable w B ->
  State w = "unknow" /\
  (forall w' B', step (w, B) (w', B') ->
     pool w' = pool w /\ Addr w' = Addr w /\ State w' = "unknow").
Proof.
  intros HR. destruct (reachable_check _ _ HR) as (k & Hk & _ & _ & Hst).
  assert (State w = "unknow") as HS by (unfold State; by rewrite Hst).
  split; [done|]. intros w' B' Hstep.
  pose proof (step_pool _ _ _ _ (reachable_pool_inv _ _ HR) Hstep (mk_is_Some _ _ Hk)) as Hp.
  unfold Addr, State in *. by rewrite Hp.
Qed.


(** ** Acquire and release together *)


(** What [PopConn] returns on a pool in use: a session of one of the
    collections and no error, or no session and an error, which is then the
    backend's answer to a call that [PopConn] made on the session it had
    picked; the last call closes that session. *)
Lemma PopConn_outcome w B r w' :
  pool_inv w B ->
  PopConn w = Ret r w' ->
  (exists a, r = (Some a, None) /\ Some a ∈ ready w ++ reserved w) \/
  (exists e t x a,
     r = (None, Some e) /\
     reply env (trace w ++ t) x = Some e /\
     trace w' = trace w ++ t ++ [x; CallClose a]).
Proof.
  intros (ci & cc & rs & rd & Hat & Hnd & Hv & Hlen & Hpos) Hpop.
  rewrite (pool_at_ready _ _ _ _ _ Hat), (pool_at_reserved _ _ _ _ _ Hat).
  destruct rd as [|p rd].
  - destruct rs as [|p rs].
    + exfalso.
      assert (PopConn_result w ci cc [] [] (PopConn w)) as Hres
        by (apply PopConn_spec; [done|constructor|cbn; lia]).
      rewrite Hpop in Hres. by inversion Hres.
    + cbn in Hv. apply Forall_cons_1 in Hv as [Hp _].
      destruct (valid_ptr_lookup _ _ Hp) as (a & c & -> & Hc).
      rewrite (PopConn_at_idle _ _ _ _ _ Hat) in Hpop.
      pose proof (pool_at_set_idle _ _ _ _ _ rs Hat) as Hat1.
      match type of Hpop with context [PopConn_fresh _ ?x] => set (w1 := x) in * end.
      assert (heap w1 = heap w) as Hh1 by done.
      assert (pool w1 = pool w) as Hp1 by done.
      assert (trace w1 = trace w) as Ht1 by done.
      clearbody w1.
      unfold PopConn_fresh in Hpop. rewrite (bind_Ret get _ w1 w1 w1 eq_refl) in Hpop.
      assert (heap w1 !! a = Some c) as Hc1 by (by rewrite Hh1).
      destruct (backend_call_run a c
        (fun l => CallConnect l (addr (pool w1)) (user (pool w1)) (password (pool w1))
                              (db (pool w1)))
        (fun _ => mkConn true false true DEFAULT_CHARSET None) w1 Hc1) as (w2 & E & R & H).
      unfold Conn_Connect in Hpop. rewrite (bind_Ret _ _ _ _ _ E) in Hpop.
      destruct (reply env (trace w1) _) as [e|] eqn:Hr.
      * assert (pool_at w2 ci cc rs []) as Hat2.
        { destruct R as (Hch & Hp2 & _). by eapply pool_at_ext. }
        destruct R as (Hch2 & Hp2 & Hl2 & Ht2 & Hf2).
        destruct (closeConn_run w2 ci cc rs [] a c Hat2 H) as (w3 & E3 & _ & R3 & _).
        { rewrite Hp2, Hp1. cbn in Hlen. lia. }
        rewrite (bind_Ret _ _ _ _ _ E3) in Hpop. injection Hpop as <- <-.
        destruct R3 as (_ & _ & Ht3 & _).
        right. exists e, [], (CallConnect a (addr (pool w1)) (user (pool w1))
                                          (password (pool w1)) (db (pool w1))), a.
        split; [done|]. rewrite app_nil_r, <- Ht1. split; [done|].
        by rewrite Ht3, Ht2, <- app_assoc.
      * injection Hpop as <- <-. left. exists a. split; [done|]. cbn. apply list_elem_of_here.
  - cbn in Hv. apply Forall_cons_1 in Hv as [Hp _].
    destruct (valid_ptr_lookup _ _ Hp) as (a & c & -> & Hc).
    rewrite (PopConn_at_cache _ _ _ _ _ _ Hat) in Hpop.
    pose proof (pool_at_set_cache _ _ _ _ _ rd Hat) as Hat1.
    match type of Hpop with context [PopConn_reuse _ ?x] => set (w1 := x) in * end.
    assert (heap w1 = heap w) as Hh1 by done.
    assert (pool w1 = pool w) as Hp1 by done.
    assert (trace w1 = trace w) as Ht1 by done.
    clearbody w1.
    unfold PopConn_reuse in Hpop.
    assert (heap w1 !! a = Some c) as Hc1 by (by rewrite Hh1).
    destruct (tryReuse_run a c w1 Hc1) as (r0 & w2 & t0 & E & R & F).
    rewrite (bind_Ret _ _ _ _ _ E) in Hpop.
    destruct r0 as [e|].
    + destruct (tryReuse_cases a c w1 (Some e) w2 Hc1 E)
        as (_ & _ & t & x & Ht2 & _ & Hr & _).
      destruct (session_run_lookup a _ w1 w2 R (mk_is_Some _ _ Hc1)) as [c2 Hc2].
      assert (pool_at w2 ci cc rs rd) as Hat2.
      { destruct R as (Hch & Hp2 & _). by eapply pool_at_ext. }
      destruct (closeConn_run w2 ci cc rs rd a c2 Hat2 Hc2) as (w3 & E3 & _ & R3 & _).
      { destruct R as (_ & -> & _). rewrite Hp1. cbn in Hlen. lia. }
      rewrite (bind_Ret _ _ _ _ _ E3) in Hpop. injection Hpop as <- <-.
      destruct R3 as (_ & _ & Ht3 & _).
      right. exists e, t, x, a. split; [done|]. rewrite <- Ht1. split; [done|].
      rewrite Ht3, Ht2, <- !app_assoc. done.
    + injection Hpop as <- <-. left. exists a. split; [done|]. cbn. apply list_elem_of_here.
Qed.

(** X22.  [GetConn] on a pool in use returns either a handle on a session
    that no other caller holds, with no error, or no handle and an error;
    never both, never neither.  The error is not one of the pool's own: it
    is the backend's answer to a call [PopConn] made on the session it had
    picked, and the last call then made closes that session. *)
Theorem GetConn_handle_or_error w B h err w' :
  reachable w B ->
  GetConn w = Ret (h, err) w' ->
  (exists a, h = Some (mkBackendConn (Some a)) /\ err = None /\ (a ∉ B) /\
             PopConn w = Ret (Some a, None) w') \/
  (exists e t x a,
     h = None /\ err = Some e /\
     reply env (trace w ++ t) x = Some e /\
     trace w' = trace w ++ t ++ [x; CallClose a]).
Proof.
  intros HR. pose proof (reachable_pool_inv _ _ HR) as Hinv.
  rewrite GetConn_PopConn. destruct (PopConn w) as [[co oe] w1| |] eqn:Hpop; [|done..].
  destruct (PopConn_outcome _ _ _ _ Hinv Hpop)
    as [(a & [= -> ->] & Hin)|(e & t & x & a & [= -> ->] & Hr & Ht)].
  - intros [= <- <- <-]. left. exists a. repeat (split; [done|]). split; [|done].
    destruct Hinv as (ci & cc & rs & rd & Hat & Hnd & _).
    rewrite (pool_at_ready _ _ _ _ _ Hat), (pool_at_reserved _ _ _ _ _ Hat) in Hin.
    intros HB. rewrite app_assoc in Hnd.
    apply list.NoDup_app in Hnd as (_ & Hd & _).
    apply (Hd _ Hin). apply list_elem_of_fmap. by exists a.
  - intros [= <- <- <-]. right. by exists e, t, x, a.
Qed.

(** X23.  Borrow and return: after [GetConn] has handed out a session
    from a pool in use, [Close] on the handle returns and gives the slot
    back: the pool is in use with the same sessions handed out as before,
    and its two collections hold the same slots as before the
    [GetConn]. *)
Theorem borrow_and_return_restores_the_pool w B h w1 :
  reachable w B ->
  GetConn w = Ret (Some h, None) w1 ->
  exists w2,
    BackendConn_Close h w1 = Ret tt w2 /\
    reachable w2 B /\
    ready w2 ++ reserved w2 ≡ₚ ready w ++ reserved w.
Proof.
  intros HR. pose proof (reachable_pool_inv _ _ HR) as Hinv.
  rewrite GetConn_PopConn. destruct (PopConn w) as [[co oe] w1'| |] eqn:Hpop; [|done..].
  destruct (PopConn_outcome _ _ _ _ Hinv Hpop)
    as [(a & [= -> ->] & Hin)|(e & t & x & a & [= -> ->] & _)]; [|done].
  intros [= <- ->].
  assert (step (w, B) (w1, a :: B)) as Hs1 by (by constructor).
  assert (reachable w1 (a :: B)) as HR1 by (by eapply reach_step).
  pose proof (reachable_pool_inv _ _ HR1) as Hinv1.
  assert (is_Some (heap w1 !! a)) as [c Hc].
  { apply lookup_lt_is_Some.
    destruct Hinv1 as (? & ? & ? & ? & _ & _ & Hv & _).
    rewrite !Forall_app in Hv. destruct Hv as (_ & _ & Hv). cbn in Hv.
    apply Forall_cons_1 in Hv as [(b & [= <-] & Hb) _]. done. }
  destruct (operations_return _ _ HR1) as [Hret _].
  destruct (Hret [] a B None eq_refl) as [[wp Ep] [wc Ec]].
  assert (exists w2, BackendConn_Close (mkBackendConn (Some a)) w1 = Ret tt w2) as [w2 E2].
  { rewrite (BackendConn_Close_unfold _ _ _ Hc). destruct (pkgErr c).
    - rewrite (bind_Ret _ _ _ _ _ Ec). by eexists.
    - by eexists. }
  exists w2. split; [done|].
  pose proof (BackendConn_Close_step w1 a c w2 [] B Hc E2) as Hs2. cbn [app] in Hs2.
  split; [by eapply reach_step|].
  pose proof Hinv as (ci & cc & rs & rd & Hat & _).
  destruct (step_effect _ _ _ _ _ _ _ _ Hinv Hs1 Hat) as (rs1 & rd1 & Hat1 & Hperm1 & _).
  destruct (step_effect _ _ _ _ _ _ _ _ Hinv1 Hs2 Hat1) as (rs2 & rd2 & Hat2 & Hperm2 & _).
  rewrite (pool_at_ready _ _ _ _ _ Hat), (pool_at_reserved _ _ _ _ _ Hat).
  rewrite (pool_at_ready _ _ _ _ _ Hat2), (pool_at_reserved _ _ _ _ _ Hat2).
  rewrite Hperm1 in Hperm2. rewrite !app_assoc in Hperm2.
  by apply Permutation_app_inv_r in Hperm2.
Qed.


(** ** [Open] and the parked [Close] *)





(** ** Discarding *)

(** X25.  [closeConn] has no error to report.  On [nil] it does nothing.
    On a session that a caller of a pool in use holds, it makes one call,
    the close, and queues the [Conn] at the end of the reserved
    collection; the [Conn] keeps the transaction, autocommit and charset
    state it had, which only a later connect resets. *)
Theorem closeConn_discards w B1 a B2 c :
  reachable w (B1 ++ a :: B2) ->
  heap w !! a = Some c ->
  closeConn None w = Ret None w /\
  exists w',
    closeConn (Some a) w = Ret None w' /\
    ready w' = ready w /\ reserved w' = reserved w ++ [Some a] /\
    trace w' = trace w ++ [CallClose a] /\
    heap w' !! a = Some (mkConn false (inTransaction c) (autoCommit c)
                                (charset c) (pkgErr c)) /\
    (forall b, b <> a -> heap w' !! b = heap w !! b) /\
    reachable w' (B1 ++ B2).
Proof.
  intros HR Hc. split; [done|].
  destruct (reachable_pool_inv _ _ HR) as (ci & cc & rs & rd & Hat & Hnd & Hv & Hlen & _).
  destruct (closeConn_run w ci cc rs rd a c Hat Hc) as (w' & E & Hat' & R & H).
  { revert Hlen. list_len. }
  exists w'. split; [done|].
  rewrite (pool_at_ready _ _ _ _ _ Hat), (pool_at_ready _ _ _ _ _ Hat').
  rewrite (pool_at_reserved _ _ _ _ _ Hat), (pool_at_reserved _ _ _ _ _ Hat').
  destruct R as (_ & _ & Ht & Hf).
  repeat (split; [done|]).
  eapply reach_step; [exact HR|]. by eapply step_discard.
Qed.

(** X26.  A handle closed after the pool: if its session carries a
    protocol error, [Close] on the handle closes the session and then parks
    for ever, because [closeConn] sends on the channel field that the
    [Close] of the pool has set to [nil]; [PushConn], which a handle
    without error goes through, tests the field and returns. *)
Theorem BackendConn_Close_after_pool_Close_parks w r w1 a c :
  Close w = Ret r w1 ->
  heap w !! a = Some c ->
  pkgErr c <> None ->
  exists w2,
    BackendConn_Close (mkBackendConn (Some a)) w1 = Block w2 /\
    trace w2 = trace w ++ [CallClose a] /\
    heap w2 !! a = Some (mkConn false (inTransaction c) (autoCommit c)
                                (charset c) (pkgErr c)).
Proof.
  intros HC Hc Herr.
  destruct (Close_returned _ _ _ HC) as (_ & _ & Hi & Hh & Ht).
  assert (heap w1 !! a = Some c) as Hc1 by (by rewrite Hh).
  rewrite (BackendConn_Close_unfold _ _ _ Hc1).
  destruct (pkgErr c) as [e|] eqn:He; [|done].
  destruct (closeConn_nil_blocks w1 a c Hi Hc1) as (w2 & E & (_ & _ & _ & Ht2 & _) & H2).
  exists w2. split; [by apply bind_Block|]. rewrite Ht2, Ht, He in *. done.
Qed.


End Pool.

(** ** The properties at the example states *)

Lemma reachable_w_open1 : reachable up_backend "utf8" w_open1 [].
Proof.
  apply (reach_Open up_backend "utf8" "127.0.0.1:3306" "root" "secret" "kingshard" 1 emptyWorld).
  vm_compute. reflexivity.
Defined.

Lemma reachable_w_held1 : reachable up_backend "utf8" w_held1 [1].
Proof.
  apply (reach_step up_backend "utf8" w_open1 [] w_held1 [1] reachable_w_open1).
  apply step_acquire. vm_compute. reflexivity.
Defined.

Lemma reachable_w_error1 : reachable up_backend "utf8" w_error1 [1].
Proof.
  apply (reach_step up_backend "utf8" w_held1 [1] w_error1 [1] reachable_w_held1).
  apply (step_use up_backend "utf8" w_held1 1 failed_conn [1]).
  apply list_elem_of_here.
Defined.


Lemma Open_fills_the_pool_witness :
  Open up_backend "utf8" "127.0.0.1:3306" "root" "secret" "kingshard" 1 emptyWorld
    = Ret None w_open1 /\
  chan_len (cacheConns (pool w_open1)) w_open1 = InitConnNum (pool w_open1) /\
  Forall (live w_open1) (ready w_open1).
Proof.
  assert (Open up_backend "utf8" "127.0.0.1:3306" "root" "secret" "kingshard" 1 emptyWorld
          = Ret None w_open1) as Hopen by (vm_compute; reflexivity).
  split; [exact Hopen|].
  pose proof (Open_fills_the_pool up_backend "utf8" "127.0.0.1:3306" "root" "secret"
                "kingshard" 1 emptyWorld w_open1 Hopen) as (H1 & H2 & _).
  split; [exact H1|exact H2].
Defined.


Lemma tryReuse_clean_session_witness :
  heap w_open1 !! 1 = Some fresh_conn /\
  clean "utf8" fresh_conn /\
  exists w',
    tryReuse up_backend "utf8" (Some 1) w_open1 = Ret None w' /\
    heap w' = heap w_open1 /\ chans w' = chans w_open1 /\ pool w' = pool w_open1 /\
    trace w' = trace w_open1
               ++ [CallIsInTransaction 1; CallIsAutoCommit 1; CallGetCharset 1] /\
    Forall (fun x => is_mutation x = false)
           [CallIsInTransaction 1; CallIsAutoCommit 1; CallGetCharset 1].
Proof.
  assert (heap w_open1 !! 1 = Some fresh_conn) as Hc by reflexivity.
  assert (clean "utf8" fresh_conn) as Hclean by (repeat split; reflexivity).
  split; [exact Hc|]. split; [exact Hclean|].
  exact (tryReuse_clean_session up_backend "utf8" w_open1 1 fresh_conn Hc Hclean).
Defined.

Lemma PushConn_after_Close_witness :
  cacheConns (pool w_shut1) = None /\
  heap w_shut1 !! 1 = Some fresh_conn /\
  exists w',
    PushConn (Some 1) None w_shut1 = Ret tt w' /\
    pool w' = pool w_shut1 /\ chans w' = chans w_shut1 /\
    trace w' = trace w_shut1 ++ [CallClose 1] /\
    heap w' !! 1 = Some (mkConn false (inTransaction fresh_conn) (autoCommit fresh_conn)
                                (charset fresh_conn) (pkgErr fresh_conn)) /\
    (forall b, b <> 1 -> heap w' !! b = heap w_shut1 !! b).
Proof.
  assert (cacheConns (pool w_shut1) = None) as Hnil by reflexivity.
  assert (heap w_shut1 !! 1 = Some fresh_conn) as Hc by reflexivity.
  split; [exact Hnil|]. split; [exact Hc|].
  exact (PushConn_after_Close w_shut1 1 fresh_conn None Hnil Hc).
Defined.

(** The pool [w_shut1] is the pool of capacity 1 after its session was
    handed out and [Close] was called, which returns as the ready collection
    is empty; a second [Close] returns success and changes nothing, and
    [PopConn] returns the error of a closed pool. *)
Lemma Close_of_drained_pool :
  Close w_held1 = Ret None w_shut1 /\
  Close w_shut1 = Ret None w_shut1 /\
  PopConn up_backend "utf8" w_shut1 = Ret (None, Some ErrDatabaseClose) w_shut1.
Proof.
  split; [vm_compute; reflexivity|]. split; vm_compute; reflexivity.
Qed.

Lemma pool_at_w_open2 : pool_at w_open2 0 1 [] [Some 1; Some 2].
Proof.
  unfold pool_at. split; [reflexivity|]. split; [reflexivity|].
  split; [discriminate|]. split; reflexivity.
Defined.

Lemma Close_parks_on_ready_session_witness :
  pool_at w_open2 0 1 [] [Some 1; Some 2] /\
  heap w_open2 !! 1 = Some fresh_conn /\
  exists w',
    Close w_open2 = Block w' /\
    cacheConns (pool w') = None /\ idleConns (pool w') = None /\
    trace w' = trace w_open2 ++ [CallClose 1] /\
    (forall b, b <> 1 -> heap w' !! b = heap w_open2 !! b).
Proof.
  assert (heap w_open2 !! 1 = Some fresh_conn) as Hc by reflexivity.
  split; [exact pool_at_w_open2|]. split; [exact Hc|].
  exact (Close_parks_on_ready_session w_open2 0 1 [] [Some 2] 1 fresh_conn
           pool_at_w_open2 Hc).
Defined.

(** [Close] right after [Open] with capacity 2: the first ready session is
    closed, the second is still queued and connected, and [Close] has not
    returned. *)
Lemma Close_after_Open_parks :
  Open up_backend "utf8" "127.0.0.1:3306" "root" "secret" "kingshard" 2 emptyWorld
    = Ret None w_open2 /\
  Close w_open2 = Block w_parked2.
Proof. split; vm_compute; reflexivity. Qed.

Lemma pool_at_w_two_out3 : pool_at w_two_out3 0 1 [] [Some 3].
Proof.
  unfold pool_at. split; [reflexivity|]. split; [reflexivity|].
  split; [discriminate|]. split; reflexivity.
Defined.

Lemma BackendConn_Close_twice_releases_twice_witness :
  pool_at w_two_out3 0 1 [] [Some 3] /\
  heap w_two_out3 !! 1 = Some fresh_conn /\
  pkgErr fresh_conn = None /\
  S (length [Some 3 : ptr]) < Z.to_nat (maxConnNum (pool w_two_out3)) /\
  exists w1 w2,
    BackendConn_Close (mkBackendConn (Some 1)) w_two_out3 = Ret tt w1 /\
    BackendConn_Close (mkBackendConn (Some 1)) w1 = Ret tt w2 /\
    ready w1 = [Some 3] ++ [Some 1] /\
    ready w2 = ([Some 3] ++ [Some 1]) ++ [Some 1].
Proof.
  assert (heap w_two_out3 !! 1 = Some fresh_conn) as Hc by reflexivity.
  assert (pkgErr fresh_conn = None) as Herr by reflexivity.
  assert (S (length [Some 3 : ptr]) < Z.to_nat (maxConnNum (pool w_two_out3))) as Hlt
    by (vm_compute; lia).
  split; [exact pool_at_w_two_out3|]. split; [exact Hc|]. split; [exact Herr|].
  split; [exact Hlt|].
  exact (BackendConn_Close_twice_releases_twice w_two_out3 0 1 [] [Some 3] 1 fresh_conn
           pool_at_w_two_out3 Hc Herr Hlt).
Defined.

(** With capacity 3 and two sessions handed out through [GetConn], closing
    the handle of the first twice queues that session twice; the next two
    [GetConn] then hand out the same session to two callers. *)
Lemma Close_twice_then_two_callers_share :
  (exists w1 w2,
     Open up_backend "utf8" "127.0.0.1:3306" "root" "secret" "kingshard" 3 emptyWorld
       = Ret None w1 /\
     GetConn up_backend "utf8" w1 = Ret (Some (mkBackendConn (Some 1)), None) w2 /\
     GetConn up_backend "utf8" w2 = Ret (Some (mkBackendConn (Some 2)), None) w_two_out3) /\
  BackendConn_Close (mkBackendConn (Some 1)) w_two_out3 = Ret tt w_closed_once3 /\
  BackendConn_Close (mkBackendConn (Some 1)) w_closed_once3 = Ret tt w_closed_twice3 /\
  ready w_closed_twice3 = [Some 3; Some 1; Some 1] /\
  (exists w1 w2 w3,
     GetConn up_backend "utf8" w_closed_twice3 = Ret (Some (mkBackendConn (Some 3)), None) w1 /\
     GetConn up_backend "utf8" w1 = Ret (Some (mkBackendConn (Some 1)), None) w2 /\
     GetConn up_backend "utf8" w2 = Ret (Some (mkBackendConn (Some 1)), None) w3).
Proof.
  split.
  { do 2 eexists. split; [vm_compute; reflexivity|].
    split; vm_compute; reflexivity. }
  split; [vm_compute; reflexivity|]. split; [vm_compute; reflexivity|].
  split; [reflexivity|].
  do 3 eexists. split; [vm_compute; reflexivity|].
  split; vm_compute; reflexivity.
Qed.



(** C4 (as stated): with capacity 1, the caller of the one session meets a
    protocol error and closes its handle; the next [PopConn] returns the
    [Conn] at the same address, the one that was discarded. *)
Lemma discarded_session_is_handed_out_again :
  heap w_error1 !! 1 = Some failed_conn /\
  pkgErr failed_conn <> None /\
  BackendConn_Close (mkBackendConn (Some 1)) w_error1 = Ret tt w_discarded1 /\
  PopConn up_backend "utf8" w_discarded1 = Ret (Some 1, None) w_again1.
Proof.
  split; [reflexivity|]. split; [discriminate|].
  split; vm_compute; reflexivity.
Qed.

Lemma discarded_session_is_reconnected_witness :
  reachable up_backend "utf8" w_error1 ([] ++ 1 :: []) /\
  heap w_error1 !! 1 = Some failed_conn /\
  pkgErr failed_conn <> None /\
  exists w1,
    BackendConn_Close (mkBackendConn (Some 1)) w_error1 = Ret tt w1 /\
    Some 1 ∈ reserved w1 /\ (Some 1 ∉ ready w1).
Proof.
  assert (heap w_error1 !! 1 = Some failed_conn) as Hc by reflexivity.
  assert (pkgErr failed_conn <> None) as Herr by discriminate.
  split; [exact reachable_w_error1|]. split; [exact Hc|]. split; [exact Herr|].
  destruct (discarded_session_is_reconnected up_backend "utf8" w_error1 [] 1 []
              failed_conn reachable_w_error1 Hc Herr) as (w1 & E & Hin & Hnot & _).
  exists w1. split; [exact E|]. split; [exact Hin|exact Hnot].
Defined.

(** ** Further properties at the example states *)

Lemma pool_at_w_open1 : pool_at w_open1 0 1 [] [Some 1].
Proof.
  unfold pool_at. split; [reflexivity|]. split; [reflexivity|].
  split; [discriminate|]. split; reflexivity.
Defined.

Lemma pool_at_w_dirty1 : pool_at w_dirty1 0 1 [] [Some 1].
Proof.
  unfold pool_at. split; [reflexivity|]. split; [reflexivity|].
  split; [discriminate|]. split; reflexivity.
Defined.

Lemma pool_at_w_discarded1 : pool_at w_discarded1 0 1 [Some 1] [].
Proof.
  unfold pool_at. split; [reflexivity|]. split; [reflexivity|].
  split; [discriminate|]. split; reflexivity.
Defined.

Lemma Close_returns_nil_and_closes_nothing_witness :
  Close w_held1 = Ret None w_shut1 /\
  IdleConnCount w_shut1 = 0%Z /\ trace w_shut1 = trace w_held1.
Proof.
  assert (Close w_held1 = Ret None w_shut1) as HC by (vm_compute; reflexivity).
  split; [exact HC|].
  pose proof (Close_returns_nil_and_closes_nothing w_held1 None w_shut1 HC)
    as (_ & _ & _ & H1 & _ & H2).
  split; [exact H1|exact H2].
Defined.

Lemma GetConn_after_Close_witness :
  Close w_held1 = Ret None w_shut1 /\
  GetConn up_backend "utf8" w_shut1 = Ret (None, Some ErrDatabaseClose) w_shut1.
Proof.
  assert (Close w_held1 = Ret None w_shut1) as HC by (vm_compute; reflexivity).
  split; [exact HC|].
  exact (proj1 (GetConn_after_Close up_backend "utf8" w_held1 None w_shut1 HC)).
Defined.

Lemma Close_is_idempotent_witness :
  Close w_held1 = Ret None w_shut1 /\ Close w_shut1 = Ret None w_shut1.
Proof.
  assert (Close w_held1 = Ret None w_shut1) as HC by (vm_compute; reflexivity).
  split; [exact HC|].
  exact (Close_is_idempotent w_held1 None w_shut1 HC).
Defined.

Lemma sessions_are_exclusive_witness :
  reachable up_backend "utf8" w_held1 [1] /\
  NoDup (ready w_held1 ++ reserved w_held1 ++ map Some [1]).
Proof.
  split; [exact reachable_w_held1|].
  exact (proj1 (sessions_are_exclusive up_backend "utf8" w_held1 [1] reachable_w_held1)).
Defined.

Lemma outstanding_sessions_are_bounded_witness :
  reachable up_backend "utf8" w_held1 [1] /\
  (Z.of_nat (length [1]) + IdleConnCount w_held1 <= maxConnNum (pool w_held1))%Z.
Proof.
  split; [exact reachable_w_held1|].
  exact (proj2 (outstanding_sessions_are_bounded up_backend "utf8" w_held1 [1]
                  reachable_w_held1)).
Defined.

Lemma tryReuse_success_sanitizes_witness :
  heap w_dirty1 !! 1 = Some (mkConn true true true "utf8" None) /\
  tryReuse up_backend "utf8" (Some 1) w_dirty1 = Ret None w_rolled1 /\
  exists c', heap w_rolled1 !! 1 = Some c' /\ clean "utf8" c' /\
             connected c' = true /\ pkgErr c' = None.
Proof.
  assert (heap w_dirty1 !! 1 = Some (mkConn true true true "utf8" None)) as Hc
    by reflexivity.
  assert (tryReuse up_backend "utf8" (Some 1) w_dirty1 = Ret None w_rolled1) as E
    by (vm_compute; reflexivity).
  split; [exact Hc|]. split; [exact E|].
  exact (proj1 (proj2 (tryReuse_success_sanitizes up_backend "utf8" 1 _ w_dirty1 w_rolled1
                         Hc E))).
Defined.

Lemma tryReuse_error_is_the_refused_call_witness :
  heap w_dirty1 !! 1 = Some (mkConn true true true "utf8" None) /\
  tryReuse norollback_backend "utf8" (Some 1) w_dirty1
    = Ret (Some (ErrBackend "server has gone away")) w_refused1 /\
  chans w_refused1 = chans w_dirty1 /\ pool w_refused1 = pool w_dirty1.
Proof.
  assert (heap w_dirty1 !! 1 = Some (mkConn true true true "utf8" None)) as Hc
    by reflexivity.
  assert (tryReuse norollback_backend "utf8" (Some 1) w_dirty1
          = Ret (Some (ErrBackend "server has gone away")) w_refused1) as E
    by (vm_compute; reflexivity).
  split; [exact Hc|]. split; [exact E|].
  exact (proj2 (tryReuse_error_is_the_refused_call norollback_backend "utf8" 1 _ w_dirty1
                  _ w_refused1 Hc E)).
Defined.

Lemma PopConn_connect_failure_keeps_the_slot_witness :
  pool_at w_discarded1 0 1 [Some 1] [] /\
  heap w_discarded1 !! 1
    = Some (mkConn false false true "utf8" (Some (ErrBackend "bad packet"))) /\
  length ([] : list ptr) < Z.to_nat (maxConnNum (pool w_discarded1)) /\
  reply down_backend (trace w_discarded1) (connect_call 1)
    = Some (ErrBackend "connection refused") /\
  exists w',
    PopConn down_backend "utf8" w_discarded1
      = Ret (None, Some (ErrBackend "connection refused")) w' /\
    pool_at w' 0 1 ([] ++ [Some 1]) [].
Proof.
  assert (heap w_discarded1 !! 1
          = Some (mkConn false false true "utf8" (Some (ErrBackend "bad packet")))) as Hc
    by reflexivity.
  assert (length ([] : list ptr) < Z.to_nat (maxConnNum (pool w_discarded1))) as Hlt
    by (vm_compute; lia).
  assert (reply down_backend (trace w_discarded1) (connect_call 1)
          = Some (ErrBackend "connection refused")) as Hr by reflexivity.
  split; [exact pool_at_w_discarded1|]. split; [exact Hc|]. split; [exact Hlt|].
  split; [exact Hr|].
  destruct (PopConn_connect_failure_keeps_the_slot down_backend "utf8" w_discarded1 0 1 []
              1 _ _ pool_at_w_discarded1 Hc Hlt Hr) as (w' & E & Hat & _).
  exists w'. split; [exact E|exact Hat].
Defined.

Lemma PopConn_sanitation_failure_discards_witness :
  pool_at w_dirty1 0 1 [] [Some 1] /\
  heap w_dirty1 !! 1 = Some (mkConn true true true "utf8" None) /\
  length ([] : list ptr) < Z.to_nat (maxConnNum (pool w_dirty1)) /\
  tryReuse norollback_backend "utf8" (Some 1) w_dirty1
    = Ret (Some (ErrBackend "server has gone away")) w_refused1 /\
  exists w',
    PopConn norollback_backend "utf8" w_dirty1
      = Ret (None, Some (ErrBackend "server has gone away")) w' /\
    pool_at w' 0 1 ([] ++ [Some 1]) [] /\
    trace w' = trace w_refused1 ++ [CallClose 1].
Proof.
  assert (heap w_dirty1 !! 1 = Some (mkConn true true true "utf8" None)) as Hc
    by reflexivity.
  assert (length ([] : list ptr) < Z.to_nat (maxConnNum (pool w_dirty1))) as Hlt
    by (vm_compute; lia).
  assert (tryReuse norollback_backend "utf8" (Some 1) w_dirty1
          = Ret (Some (ErrBackend "server has gone away")) w_refused1) as E
    by (vm_compute; reflexivity).
  split; [exact pool_at_w_dirty1|]. split; [exact Hc|]. split; [exact Hlt|].
  split; [exact E|].
  destruct (PopConn_sanitation_failure_discards norollback_backend "utf8" w_dirty1 0 1 [] []
              1 _ _ w_refused1 pool_at_w_dirty1 Hc Hlt E) as (w' & E' & Hat & Ht & _).
  exists w'. split; [exact E'|]. split; [exact Hat|exact Ht].
Defined.

Lemma PopConn_hands_out_clean_session_witness :
  reachable up_backend "utf8" w_open1 [] /\
  PopConn up_backend "utf8" w_open1 = Ret (Some 1, None) w_held1 /\
  exists c, heap w_held1 !! 1 = Some c /\ clean "utf8" c.
Proof.
  assert (PopConn up_backend "utf8" w_open1 = Ret (Some 1, None) w_held1) as Hpop
    by (vm_compute; reflexivity).
  split; [exact reachable_w_open1|]. split; [exact Hpop|].
  exact (proj2 (PopConn_hands_out_clean_session up_backend "utf8" w_open1 [] 1 w_held1
                  reachable_w_open1 Hpop)).
Defined.

Lemma release_parks_the_session_witness :
  reachable up_backend "utf8" w_held1 ([] ++ 1 :: []) /\
  exists w',
    PushConn (Some 1) None w_held1 = Ret tt w' /\
    ready w' = ready w_held1 ++ [Some 1] /\ trace w' = trace w_held1.
Proof.
  split; [exact reachable_w_held1|].
  destruct (release_parks_the_session up_backend "utf8" w_held1 [] 1 [] reachable_w_held1)
    as (w' & E & Hrd & _ & _ & Ht & _).
  exists w'. split; [exact E|]. split; [exact Hrd|exact Ht].
Defined.

Lemma release_with_error_discards_witness :
  reachable up_backend "utf8" w_held1 ([] ++ 1 :: []) /\
  exists w',
    PushConn (Some 1) (Some (ErrBackend "bad packet")) w_held1 = Ret tt w' /\
    ready w' = ready w_held1 /\ reserved w' = reserved w_held1 ++ [Some 1].
Proof.
  split; [exact reachable_w_held1|].
  destruct (release_with_error_discards up_backend "utf8" w_held1 [] 1 []
              (ErrBackend "bad packet") reachable_w_held1) as (w' & E & Hrd & Hrs & _).
  exists w'. split; [exact E|]. split; [exact Hrd|exact Hrs].
Defined.

Lemma PushConn_on_full_ready_discards_witness :
  pool_at w_open1 0 1 [] [Some 1] /\
  length [Some 1] = Z.to_nat (maxConnNum (pool w_open1)) /\
  length ([] : list ptr) < Z.to_nat (maxConnNum (pool w_open1)) /\
  heap w_open1 !! 0 = Some fresh_conn /\
  exists w',
    PushConn (Some 0) None w_open1 = Ret tt w' /\
    pool_at w' 0 1 ([] ++ [Some 0]) [Some 1] /\
    trace w' = trace w_open1 ++ [CallClose 0].
Proof.
  assert (length [Some 1] = Z.to_nat (maxConnNum (pool w_open1))) as Hfull by reflexivity.
  assert (length ([] : list ptr) < Z.to_nat (maxConnNum (pool w_open1))) as Hlt
    by (vm_compute; lia).
  assert (heap w_open1 !! 0 = Some fresh_conn) as Hc by reflexivity.
  split; [exact pool_at_w_open1|]. split; [exact Hfull|]. split; [exact Hlt|].
  split; [exact Hc|].
  destruct (PushConn_on_full_ready_discards w_open1 0 1 [] [Some 1] 0 fresh_conn
              pool_at_w_open1 Hfull Hlt Hc) as (w' & E & Hat & Ht & _).
  exists w'. split; [exact E|]. split; [exact Hat|exact Ht].
Defined.

Lemma released_session_is_the_next_handed_out_witness :
  reachable up_backend "utf8" w_held1 ([] ++ 1 :: []) /\
  ready w_held1 = [] /\
  exists w1 r w2,
    PushConn (Some 1) None w_held1 = Ret tt w1 /\
    PopConn up_backend "utf8" w1 = Ret r w2 /\
    ready w2 = [].
Proof.
  assert (ready w_held1 = []) as He by reflexivity.
  split; [exact reachable_w_held1|]. split; [exact He|].
  destruct (released_session_is_the_next_handed_out up_backend "utf8" w_held1 [] 1 []
              reachable_w_held1 He) as (w1 & r & w2 & E1 & E2 & Hrd & _).
  exists w1, r, w2. split; [exact E1|]. split; [exact E2|exact Hrd].
Defined.

Lemma Ping_uses_the_check_session_witness :
  checkConn (pool w_open1) = Some 0 /\
  heap w_open1 !! 0 = Some fresh_conn /\
  exists w',
    Ping up_backend "utf8" w_open1 = Ret None w' /\
    trace w' = trace w_open1 ++ [CallPing 0] /\
    heap w' = heap w_open1 /\ chans w' = chans w_open1 /\ pool w' = pool w_open1.
Proof.
  assert (checkConn (pool w_open1) = Some 0) as Hk by reflexivity.
  assert (heap w_open1 !! 0 = Some fresh_conn) as Hc by reflexivity.
  split; [exact Hk|]. split; [exact Hc|].
  exact (Ping_uses_the_check_session up_backend "utf8" w_open1 0 fresh_conn Hk Hc).
Defined.

Lemma Ping_without_check_session_witness :
  checkConn (pool w_down) = None /\
  exists w',
    Ping down_backend "utf8" w_down = Ret (Some (ErrBackend "connection refused")) w' /\
    checkConn (pool w') = None /\
    trace w' = trace w_down ++ [connect_call 1].
Proof.
  assert (checkConn (pool w_down) = None) as Hk by reflexivity.
  split; [exact Hk|].
  destruct (Ping_without_check_session down_backend "utf8" w_down Hk)
    as (w' & _ & _ & _ & H).
  exists w'. exact H.
Defined.


Lemma Open_connects_lazily_witness :
  Open up_backend "utf8" "127.0.0.1:3306" "root" "secret" "kingshard" 1 emptyWorld
    = Ret None w_open1 /\
  Addr w_open1 = "127.0.0.1:3306" /\ State w_open1 = "unknow" /\
  checkConn (pool w_open1) = Some (length (heap emptyWorld)).
Proof.
  assert (Open up_backend "utf8" "127.0.0.1:3306" "root" "secret" "kingshard" 1 emptyWorld
          = Ret None w_open1) as Hopen by (vm_compute; reflexivity).
  split; [exact Hopen|].
  pose proof (Open_connects_lazily up_backend "utf8" "127.0.0.1:3306" "root" "secret"
                "kingshard" 1 emptyWorld w_open1 Hopen) as (H1 & H2 & H3 & _).
  split; [exact H1|]. split; [exact H2|exact H3].
Defined.

Lemma check_session_is_never_pooled_witness :
  reachable up_backend "utf8" w_held1 [1] /\
  exists k, checkConn (pool w_held1) = Some k /\ k < length (heap w_held1) /\ k ∉ [1].
Proof.
  split; [exact reachable_w_held1|].
  destruct (check_session_is_never_pooled up_backend "utf8" w_held1 [1] reachable_w_held1)
    as (k & Hk & Hlt & _ & _ & Hout & _).
  exists k. split; [exact Hk|]. split; [exact Hlt|exact Hout].
Defined.

Lemma pool_fields_are_fixed_witness :
  reachable up_backend "utf8" w_held1 [1] /\ State w_held1 = "unknow".
Proof.
  split; [exact reachable_w_held1|].
  exact (proj1 (pool_fields_are_fixed up_backend "utf8" w_held1 [1] reachable_w_held1)).
Defined.


Lemma GetConn_handle_or_error_witness :
  reachable up_backend "utf8" w_open1 [] /\
  GetConn up_backend "utf8" w_open1 = Ret (Some (mkBackendConn (Some 1)), None) w_held1 /\
  PopConn up_backend "utf8" w_open1 = Ret (Some 1, None) w_held1.
Proof.
  assert (GetConn up_backend "utf8" w_open1
          = Ret (Some (mkBackendConn (Some 1)), None) w_held1) as HG
    by (vm_compute; reflexivity).
  split; [exact reachable_w_open1|]. split; [exact HG|].
  destruct (GetConn_handle_or_error up_backend "utf8" w_open1 [] _ _ w_held1
              reachable_w_open1 HG)
    as [(a & Hh & _ & _ & Hpop)|(e & t & x & a & Hh & _)].
  - injection Hh as <-. exact Hpop.
  - discriminate Hh.
Defined.

Lemma borrow_and_return_restores_the_pool_witness :
  reachable up_backend "utf8" w_open1 [] /\
  GetConn up_backend "utf8" w_open1 = Ret (Some (mkBackendConn (Some 1)), None) w_held1 /\
  exists w2,
    BackendConn_Close (mkBackendConn (Some 1)) w_held1 = Ret tt w2 /\
    reachable up_backend "utf8" w2 [] /\
    ready w2 ++ reserved w2 ≡ₚ ready w_open1 ++ reserved w_open1.
Proof.
  assert (GetConn up_backend "utf8" w_open1
          = Ret (Some (mkBackendConn (Some 1)), None) w_held1) as HG
    by (vm_compute; reflexivity).
  split; [exact reachable_w_open1|]. split; [exact HG|].
  exact (borrow_and_return_restores_the_pool up_backend "utf8" w_open1 [] _ w_held1
           reachable_w_open1 HG).
Defined.


Lemma closeConn_discards_witness :
  reachable up_backend "utf8" w_held1 ([] ++ 1 :: []) /\
  heap w_held1 !! 1 = Some fresh_conn /\
  closeConn None w_held1 = Ret None w_held1 /\
  exists w',
    closeConn (Some 1) w_held1 = Ret None w' /\
    ready w' = ready w_held1 /\ reserved w' = reserved w_held1 ++ [Some 1].
Proof.
  assert (heap w_held1 !! 1 = Some fresh_conn) as Hc by reflexivity.
  split; [exact reachable_w_held1|]. split; [exact Hc|].
  destruct (closeConn_discards up_backend "utf8" w_held1 [] 1 [] fresh_conn
              reachable_w_held1 Hc) as (Hnil & w' & E & Hrd & Hrs & _).
  split; [exact Hnil|]. exists w'. split; [exact E|]. split; [exact Hrd|exact Hrs].
Defined.

Lemma BackendConn_Close_after_pool_Close_parks_witness :
  Close w_error1 = Ret None w_shut_error1 /\
  heap w_error1 !! 1 = Some failed_conn /\
  pkgErr failed_conn <> None /\
  exists w2,
    BackendConn_Close (mkBackendConn (Some 1)) w_shut_error1 = Block w2 /\
    trace w2 = trace w_error1 ++ [CallClose 1].
Proof.
  assert (Close w_error1 = Ret None w_shut_error1) as HC by (vm_compute; reflexivity).
  assert (heap w_error1 !! 1 = Some failed_conn) as Hc by reflexivity.
  assert (pkgErr failed_conn <> None) as Herr by discriminate.
  split; [exact HC|]. split; [exact Hc|]. split; [exact Herr|].
  destruct (BackendConn_Close_after_pool_Close_parks w_error1 None w_shut_error1 1
              failed_conn HC Hc Herr) as (w2 & E & Ht & _).
  exists w2. split; [exact E|exact Ht].
Defined.
